(** * Issue triage core: lifecycle state machine, agent pipeline, task graph

    A shallow embedding of [src/state-machine/IssueFSM.ts],
    [src/state-machine/AgentPipeline.ts] and of the coordinator agent
    ([buildDAG], [createExecutionPlan], [execute]), followed by the
    properties of the specification that were checked against them.

    Conventions.  JavaScript strings are modelled as [string] (sequences of
    8-bit characters, so [toLowerCase] is the ASCII one); a [Set<string>]
    used for membership is a [gset string]; arrays are lists.  A thrown
    [Error] is modelled by its message.  [emit] is modelled as appending to a
    log kept in the emitting object: listeners observe, they do not
    interfere.  [await] is sequencing: everything runs on one thread. *)

From stdpp Require Import gmap strings list pretty relations.

Local Open Scope string_scope.
Local Open Scope list_scope.

Set Warnings "-clear-no-such-hyp".

(** ** Fallible, stateful computations *)

Inductive Result (A : Type) : Type :=
  | Return (a : A)
  | Throw (message : string).
Arguments Return {A} a.
Arguments Throw {A} message.

(** A method of an object whose fields are [S]: it may update the fields and
    either returns or throws. *)
Definition M (S A : Type) : Type := S → S * Result A.

Definition ret {S A} (a : A) : M S A := λ s, (s, Return a).

Definition throw {S A} (message : string) : M S A := λ s, (s, Throw message).

Definition bind {S A B} (c : M S A) (k : A → M S B) : M S B :=
  λ s, match c s with
       | (s', Return a) => k a s'
       | (s', Throw message) => (s', Throw message)
       end.

(** [try { c } catch (error) { handler(error) }] *)
Definition try_catch {S A} (c : M S A) (handler : string → M S A) : M S A :=
  λ s, match c s with
       | (s', Return a) => (s', Return a)
       | (s', Throw message) => handler message s'
       end.

Definition modify {S} (f : S → S) : M S unit := λ s, (f s, Return tt).

Definition read {S A} (f : S → A) : M S A := λ s, (s, Return (f s)).

Notation "'let!' x := c 'in' k" := (bind c (λ x, k))
  (at level 10, x name, c at level 100, k at level 200,
   format "'[v' 'let!'  x  :=  c  'in' '/' k ']'").
Notation "c >> k" := (bind c (λ _, k))
  (at level 100, k at level 200, right associativity).

(** ** JavaScript string and array primitives *)

Definition lower_char (c : Ascii.ascii) : Ascii.ascii :=
  let n := Ascii.nat_of_ascii c in
  if (65 <=? n)%nat && (n <=? 90)%nat then Ascii.ascii_of_nat (n + 32) else c.

(** [s.toLowerCase()] *)
Fixpoint toLowerCase (s : string) : string :=
  match s with
  | EmptyString => EmptyString
  | String c s' => String (lower_char c) (toLowerCase s')
  end.

(** [s.startsWith(p)] *)
Definition startsWith (s p : string) : bool := String.prefix p s.

(** [s.includes(p)] *)
Fixpoint includes (s p : string) : bool :=
  startsWith s p ||
  match s with
  | EmptyString => false
  | String _ s' => includes s' p
  end.

(** [[...new Set(l)]]: the distinct elements of [l], each at the place of its
    first occurrence.  [seen] is what the set already holds. *)
Fixpoint distinct_from (seen : list string) (l : list string) : list string :=
  match l with
  | [] => []
  | x :: l' =>
      if bool_decide (x ∈ seen) then distinct_from seen l'
      else x :: distinct_from (x :: seen) l'
  end.

Definition distinct (l : list string) : list string := distinct_from [] l.

(** ** The lifecycle state machine ([IssueFSM.ts]) *)

Module IssueFSM.

Inductive IssueState := new | pending | in_progress | review | done | closed.
Inductive IssuePriority := low | medium | high | critical.

#[global] Instance IssueState_eq_dec : EqDecision IssueState.
Proof. solve_decision. Defined.
#[global] Instance IssuePriority_eq_dec : EqDecision IssuePriority.
Proof. solve_decision. Defined.

(** The string each member of the union types is. *)
Definition state_name (s : IssueState) : string :=
  match s with
  | new => "new" | pending => "pending" | in_progress => "in_progress"
  | review => "review" | done => "done" | closed => "closed"
  end.

Definition priority_name (p : IssuePriority) : string :=
  match p with
  | low => "low" | medium => "medium" | high => "high" | critical => "critical"
  end.

Record IssueData := mkIssueData {
  id : string;
  title : string;
  body : string;
  state : IssueState;
  priority : option IssuePriority;
  labels : list string;
  assignee : option string
}.

Record StateTransition := mkStateTransition {
  from : IssueState;
  to : IssueState;
  timestamp : Z;
  reason : option string
}.

Inductive Event :=
  | state_changed (transition : StateTransition)
  | priority_assigned (assignedPriority : IssuePriority)
  | labels_updated (newLabels : list string)
  | ready_for_processing (issue : IssueData)
  | error (message : string).

(** The fields of an [IssueFSM] object, and what it has emitted so far. *)
Record FSM := mkFSM {
  issue : IssueData;
  transitionHistory : list StateTransition;
  emitted : list Event
}.

(** [new IssueFSM(issue)] *)
Definition create (i : IssueData) : FSM := mkFSM i [] [].

Definition set_state (s : IssueState) (i : IssueData) : IssueData :=
  mkIssueData (id i) (title i) (body i) s (priority i) (labels i) (assignee i).
Definition set_priority (p : IssuePriority) (i : IssueData) : IssueData :=
  mkIssueData (id i) (title i) (body i) (state i) (Some p) (labels i) (assignee i).
Definition set_labels (l : list string) (i : IssueData) : IssueData :=
  mkIssueData (id i) (title i) (body i) (state i) (priority i) l (assignee i).

Definition update_issue (f : IssueData → IssueData) : M FSM unit :=
  modify (λ fsm, mkFSM (f (issue fsm)) (transitionHistory fsm) (emitted fsm)).
Definition record_transition (t : StateTransition) : M FSM unit :=
  modify (λ fsm, mkFSM (issue fsm) (transitionHistory fsm ++ [t]) (emitted fsm)).
Definition emit (e : Event) : M FSM unit :=
  modify (λ fsm, mkFSM (issue fsm) (transitionHistory fsm) (emitted fsm ++ [e])).

(** [transitionToPending]; [now] is what [new Date()] reads. *)
Definition transitionToPending (now : Z) : M FSM unit :=
  let! previousState := read (λ fsm, state (issue fsm)) in
  update_issue (set_state pending) >>
  let transition :=
    mkStateTransition previousState pending now
                      (Some "Auto-transition from new issue") in
  record_transition transition >>
  emit (state_changed transition).

Definition critical_keywords : list string :=
  ["critical"; "urgent"; "emergency"; "production down"; "security"].
Definition high_keywords : list string :=
  ["high priority"; "important"; "blocker"; "blocking"; "asap"].
Definition medium_keywords : list string :=
  ["medium"; "should"; "need"; "improvement"].
Definition low_keywords : list string :=
  ["low"; "minor"; "nice to have"; "enhancement"; "documentation"].

(** [`${this.issue.title} ${this.issue.body}`.toLowerCase()] *)
Definition text_of (i : IssueData) : string :=
  toLowerCase (title i +:+ " " +:+ body i).

(** [for (const keyword of keywords)
      if (text.includes(keyword)) { assignedPriority = p; break; }] *)
Fixpoint scan (text : string) (keywords : list string) (p : IssuePriority)
  (assignedPriority : IssuePriority) : IssuePriority :=
  match keywords with
  | [] => assignedPriority
  | keyword :: rest =>
      if includes text keyword then p else scan text rest p assignedPriority
  end.

(** The value of [assignedPriority] at the end of [autoAssignPriority]. *)
Definition assignedPriority (text : string) : IssuePriority :=
  let a := medium in
  let a := scan text critical_keywords critical a in
  let a := if decide (a = medium) then scan text high_keywords high a else a in
  let a := if decide (a = medium) then scan text low_keywords low a else a in
  a.

Definition autoAssignPriority : M FSM unit :=
  let! text := read (λ fsm, text_of (issue fsm)) in
  let a := assignedPriority text in
  update_issue (set_priority a) >>
  emit (priority_assigned a).

(** [if (c) newLabels.push(x)] *)
Definition push_if (c : bool) (x : string) (newLabels : list string) : list string :=
  if c then newLabels ++ [x] else newLabels.

(** The value of [newLabels] when [addAutoLabels] merges it. *)
Definition newLabels (i : IssueData) : list string :=
  let text := text_of i in
  let l := [] in
  let l := match priority i with
           | Some p => l ++ ["priority:" +:+ priority_name p]
           | None => l
           end in
  let l := push_if (includes text "bug" || includes text "error" || includes text "fix")
                   "bug" l in
  let l := push_if (includes text "feature" || includes text "enhancement")
                   "enhancement" l in
  let l := push_if (includes text "test" || includes text "testing") "testing" l in
  let l := push_if (includes text "documentation" || includes text "docs")
                   "documentation" l in
  let l := push_if (includes text "state machine" || includes text "fsm")
                   "state-machine" l in
  let l := push_if (includes text "agent" || includes text "pipeline")
                   "agent-system" l in
  l ++ ["state:" +:+ state_name (state i)].

Definition addAutoLabels : M FSM unit :=
  let! i := read issue in
  let merged := distinct (labels i ++ newLabels i) in
  update_issue (set_labels merged) >>
  emit (labels_updated merged).

(** [initialize] *)
Definition initialize (now : Z) : M FSM unit :=
  try_catch
    (let! s := read (λ fsm, state (issue fsm)) in
     if decide (s = new) then
       transitionToPending now >>
       autoAssignPriority >>
       addAutoLabels >>
       let! i := read issue in
       emit (ready_for_processing i)
     else ret tt)
    (λ e, emit (error e) >> throw e).

Definition validTransitions (s : IssueState) : list IssueState :=
  match s with
  | new => [pending; closed]
  | pending => [in_progress; closed]
  | in_progress => [review; pending; closed]
  | review => [done; in_progress; closed]
  | done => [closed; in_progress]
  | closed => [pending]
  end.

(** [transition(toState, reason)] *)
Definition transition (now : Z) (toState : IssueState) (reason : option string)
  : M FSM unit :=
  let! current := read (λ fsm, state (issue fsm)) in
  if negb (bool_decide (toState ∈ validTransitions current)) then
    throw ("Invalid transition from " +:+ state_name current
           +:+ " to " +:+ state_name toState)
  else
    let previousState := current in
    update_issue (set_state toState) >>
    let transition := mkStateTransition previousState toState now reason in
    record_transition transition >>
    emit (state_changed transition) >>
    update_issue (λ i, set_labels
      (filter (λ l, negb (startsWith l "state:") = true) (labels i)) i) >>
    update_issue (λ i, set_labels (labels i ++ ["state:" +:+ state_name toState]) i).

Definition getIssue (fsm : FSM) : IssueData := issue fsm.
Definition getHistory (fsm : FSM) : list StateTransition := transitionHistory fsm.

Definition canTransitionTo (fsm : FSM) (toState : IssueState) : bool :=
  bool_decide (toState ∈ validTransitions (state (issue fsm))).

(** *** The specification's wording, to compare the code with *)

(** The transition table of the specification (section 4.1), row by row. *)
Definition transition_table : list (IssueState * IssueState) :=
  [(new, pending); (new, closed);
   (pending, in_progress); (pending, closed);
   (in_progress, review); (in_progress, pending); (in_progress, closed);
   (review, done); (review, in_progress); (review, closed);
   (done, closed); (done, in_progress);
   (closed, pending)].

(** Priority by tiers, as the specification words it: critical, then high,
    then low, the first tier with a matching keyword wins, medium
    otherwise. *)
Definition matches (text : string) (keywords : list string) : bool :=
  existsb (includes text) keywords.

Definition priority_by_tiers (text : string) : IssuePriority :=
  if matches text critical_keywords then critical
  else if matches text high_keywords then high
  else if matches text low_keywords then low
  else medium.

(** The record of end-to-end scenario 1. *)
Definition scenario1 (i : string) (a : option string) : IssueData :=
  mkIssueData i "Critical production bug" "" new None [] a.

End IssueFSM.

(** ** The agent pipeline ([AgentPipeline.ts]) *)

Module AgentPipeline.

Import IssueFSM.

(** An agent: its name and what [process] resolves or rejects with. *)
Record Agent := mkAgent {
  name : string;
  process : IssueData → Result IssueData
}.

Inductive Event :=
  | agent_registered (name : string)
  | agents_cleared
  | agent_start (agent : string) (issue : string)
  | agent_complete (agent : string) (issue : string)
  | pipeline_complete (processedIssue : IssueData)
  | pipeline_error (message : string)
  | issue_state_changed (transition : StateTransition)
  | issue_priority_assigned (assignedPriority : IssuePriority)
  | issue_labels_updated (newLabels : list string)
  | issue_ready (issue : IssueData)
  | fsm_error (message : string).

Record Pipeline := mkPipeline {
  agents : list Agent;
  fsm : option FSM;
  emitted : list Event
}.

Definition create : Pipeline := mkPipeline [] None [].

Definition emit (e : Event) : M Pipeline unit :=
  modify (λ p, mkPipeline (agents p) (fsm p) (emitted p ++ [e])).

Definition registerAgent (agent : Agent) : M Pipeline unit :=
  modify (λ p, mkPipeline (agents p ++ [agent]) (fsm p) (emitted p)) >>
  emit (agent_registered (name agent)).

Definition clearAgents : M Pipeline unit :=
  modify (λ p, mkPipeline [] (fsm p) (emitted p)) >>
  emit agents_cleared.

Definition getAgents (p : Pipeline) : list Agent := agents p.

(** The listeners [setupFSMListeners] installs: what the pipeline emits
    when the state machine emits [e]. *)
Definition forward (e : IssueFSM.Event) : Event :=
  match e with
  | state_changed t => issue_state_changed t
  | priority_assigned p => issue_priority_assigned p
  | labels_updated l => issue_labels_updated l
  | ready_for_processing i => issue_ready i
  | error m => fsm_error m
  end.

(** Run a method of [this.fsm]; its events reach the pipeline's subscribers
    through [forward] as they are emitted.  [processIssue] assigns
    [this.fsm] before it uses it, so the first branch is never taken
    there. *)
Definition on_fsm {A} (c : M FSM A) : M Pipeline A :=
  λ p, match fsm p with
       | None => (p, Throw "fsm is null")
       | Some f =>
           let '(f', r) := c f in
           let fresh := drop (length (IssueFSM.emitted f)) (IssueFSM.emitted f') in
           (mkPipeline (agents p) (Some f') (emitted p ++ map forward fresh), r)
       end.

(** [await agent.process(processedIssue)] *)
Definition call (agent : Agent) (i : IssueData) : M Pipeline IssueData :=
  λ p, (p, process agent i).

(** [for (const agent of this.agents) { ... }] *)
Fixpoint run_agents (l : list Agent) (processedIssue : IssueData)
  : M Pipeline IssueData :=
  match l with
  | [] => ret processedIssue
  | agent :: rest =>
      emit (agent_start (name agent) (id processedIssue)) >>
      let! processedIssue := call agent processedIssue in
      emit (agent_complete (name agent) (id processedIssue)) >>
      run_agents rest processedIssue
  end.

(** [processIssue], for any behaviour [init] of [this.fsm.initialize()]. *)
Definition processIssueWith (init : M FSM unit) (i : IssueData)
  : M Pipeline IssueData :=
  try_catch
    (modify (λ p, mkPipeline (agents p) (Some (IssueFSM.create i)) (emitted p)) >>
     on_fsm init >>
     let! processedIssue := on_fsm (read getIssue) in
     let! l := read agents in
     let! processedIssue := run_agents l processedIssue in
     emit (pipeline_complete processedIssue) >>
     ret processedIssue)
    (λ e, emit (pipeline_error e) >> throw e).

Definition processIssue (now : Z) (i : IssueData) : M Pipeline IssueData :=
  processIssueWith (initialize now) i.

(** *** The specification's wording, to compare the code with *)

(** Agents applied in order, each to the output of the one before;
    [None] when one of them fails. *)
Fixpoint chain (l : list Agent) (i : IssueData) : option IssueData :=
  match l with
  | [] => Some i
  | agent :: rest =>
      match process agent i with
      | Return i' => chain rest i'
      | Throw _ => None
      end
  end.

(** The start and complete signals that bracket each agent of [l] when all
    of them succeed. *)
Fixpoint brackets (l : list Agent) (i : IssueData) : list Event :=
  match l with
  | [] => []
  | agent :: rest =>
      match process agent i with
      | Return i' =>
          agent_start (name agent) (id i) :: agent_complete (name agent) (id i')
          :: brackets rest i'
      | Throw _ => []
      end
  end.

(** The pipeline [p] after [this.fsm] became [f] and [events] were
    emitted. *)
Definition signalled (p : Pipeline) (f : option FSM) (events : list Event)
  : Pipeline :=
  mkPipeline (agents p) f (emitted p ++ events).

(** Two agents that append a label, and one that fails. *)
Definition labeller (n l : string) : Agent :=
  mkAgent n (λ i, Return (set_labels (labels i ++ [l]) i)).

Definition failing (n e : string) : Agent := mkAgent n (λ _, Throw e).

End AgentPipeline.

(** ** The coordinator agent: task graph builder *)

Module Coordinator.

Record Task := mkTask {
  id : string;
  title : string;
  dependencies : list string;
  estimatedEffort : string;
  agent : string
}.

Record DAG := mkDAG {
  tasks : list Task;
  levels : list (list string);
  hasCycles : bool
}.

(** The variables [levels], [visited], [inProgress] and [hasCycles] that
    the closure [visit] of [buildDAG] reads and writes. *)
Record Walk := mkWalk {
  st_levels : list (list string);
  st_visited : gset string;
  st_inProgress : gset string;
  st_hasCycles : bool
}.

Definition start : Walk := mkWalk [] ∅ ∅ false.

(** [tasks.find((t) => t.id === taskId)] *)
Definition find_task (ts : list Task) (taskId : string) : option Task :=
  List.find (λ t, bool_decide (id t = taskId)) ts.

(** [while (levels.length <= level) levels.push([])] *)
Definition grow (lv : list (list string)) (level : nat) : list (list string) :=
  lv ++ replicate (S level - length lv) [].

(** [levels[level].push(taskId)], after growing *)
Definition addToLevel (lv : list (list string)) (level : nat) (taskId : string)
  : list (list string) :=
  alter (λ currentLevel, currentLevel ++ [taskId]) level (grow lv level).

(** The dependencies [visit] iterates over: those of the task found under
    [taskId], none when [find] returns [undefined]. *)
Definition deps_of (ts : list Task) (taskId : string) : list string :=
  match find_task ts taskId with
  | Some task => dependencies task
  | None => []
  end.

(** [for (const dep of ...) f(dep)], threading the closure variables;
    [None] when a call ran out of fuel. *)
Fixpoint for_each (f : string → Walk → option Walk) (l : list string) (st : Walk)
  : option Walk :=
  match l with
  | [] => Some st
  | dep :: rest =>
      match f dep st with
      | Some st' => for_each f rest st'
      | None => None
      end
  end.

(** The closure [visit].  The recursion of the source is not structural;
    [fuel] bounds its depth and [None] means the bound was too small
    ([visit_terminates] shows that the bound used by [buildDAG] never is). *)
Fixpoint visit (fuel : nat) (ts : list Task) (taskId : string) (level : nat)
  (st : Walk) : option Walk :=
  match fuel with
  | O => None
  | S fuel' =>
      if decide (taskId ∈ st_inProgress st) then
        Some (mkWalk (st_levels st) (st_visited st) (st_inProgress st) true)
      else if decide (taskId ∈ st_visited st) then Some st
      else
        let st1 := mkWalk (st_levels st) (st_visited st)
                          ({[taskId]} ∪ st_inProgress st) (st_hasCycles st) in
        match for_each (λ dep, visit fuel' ts dep (S level)) (deps_of ts taskId) st1 with
        | Some st2 =>
            Some (mkWalk (addToLevel (st_levels st2) level taskId)
                         ({[taskId]} ∪ st_visited st2)
                         (st_inProgress st2 ∖ {[taskId]})
                         (st_hasCycles st2))
        | None => None
        end
  end.

(** [for (const task of tasks) if (!visited.has(task.id)) visit(task.id, 0)] *)
Fixpoint visit_all (fuel : nat) (ts : list Task) (roots : list Task) (st : Walk)
  : option Walk :=
  match roots with
  | [] => Some st
  | task :: rest =>
      if decide (id task ∈ st_visited st) then visit_all fuel ts rest st
      else match visit fuel ts (id task) 0 st with
           | Some st' => visit_all fuel ts rest st'
           | None => None
           end
  end.

(** Every identifier the traversal can meet: task identifiers and declared
    dependencies. *)
Definition mentioned (ts : list Task) : gset string :=
  list_to_set (map id ts) ∪ list_to_set (concat (map dependencies ts)).

Definition enough (ts : list Task) : nat := S (size (mentioned ts)).

Definition buildDAG_fuel (fuel : nat) (ts : list Task) : option DAG :=
  match visit_all fuel ts ts start with
  | Some st => Some (mkDAG ts (reverse (st_levels st)) (st_hasCycles st))
  | None => None
  end.

(** [buildDAG].  The fallback is never used: [buildDAG_fuel_enough]. *)
Definition buildDAG (ts : list Task) : DAG :=
  default (mkDAG ts [] false) (buildDAG_fuel (enough ts) ts).

(** [level.join(', ')] *)
Definition join (sep : string) (l : list string) : string := String.concat sep l.

Definition plan_line (i : nat) (level : list string) : string :=
  if decide (length level = 1) then
    "Level " +:+ pretty (i + 1) +:+ ": " +:+ default "" (level !! 0)
  else
    "Level " +:+ pretty (i + 1) +:+ ": " +:+ join ", " level +:+ " (parallel)".

Definition createExecutionPlan (dag : DAG) : list string :=
  imap plan_line (levels dag).

(** *** [execute] *)

Inductive ComplexityType := small | medium | large | xlarge.

Record GitHubIssue := mkGitHubIssue {
  number : nat;
  issue_title : string;
  issue_body : option string
}.

Record CoordinatorResult := mkCoordinatorResult {
  success : bool;
  complexity : ComplexityType;
  dag : DAG;
  executionPlan : list string
}.

(** The comments [execute] posts, by what they report. *)
Inductive Comment :=
  | Started
  | Failed (errorMessage : string)
  | Completed (complexity : ComplexityType) (dag : DAG) (executionPlan : list string).

(** Calls on the issue tracker client, which are taken to succeed. *)
Inductive Call :=
  | createComment (issueNumber : nat) (body : Comment)
  | addLabels (issueNumber : nat) (complexity : ComplexityType).

(** What the two calls to the text generation service come to. *)
Record Oracle := mkOracle {
  analyzeComplexity : GitHubIssue → Result ComplexityType;
  decomposeTasks : GitHubIssue → Result (list Task)
}.

Definition post (c : Call) : M (list Call) unit := modify (λ calls, calls ++ [c]).

Definition lift {A} (r : Result A) : M (list Call) A := λ calls, (calls, r).

Definition execute (ai : Oracle) (issue : GitHubIssue)
  : M (list Call) CoordinatorResult :=
  try_catch
    (post (createComment (number issue) Started) >>
     let! complexity := lift (analyzeComplexity ai issue) in
     let! tasks := lift (decomposeTasks ai issue) in
     let dag := buildDAG tasks in
     if hasCycles dag then throw "Circular dependency detected in task graph"
     else
       let executionPlan := createExecutionPlan dag in
       post (createComment (number issue) (Completed complexity dag executionPlan)) >>
       post (addLabels (number issue) complexity) >>
       ret (mkCoordinatorResult true complexity dag executionPlan))
    (λ errorMessage,
       post (createComment (number issue) (Failed errorMessage)) >>
       throw errorMessage).

End Coordinator.

(** ** Notions the properties of the task graph are stated with *)

Module Graph.

Import Coordinator.

(** The successors the traversal follows from [x]: the dependencies of the
    task that [find] returns for [x]. *)
Definition edge (ts : list Task) (x y : string) : Prop := y ∈ deps_of ts x.

(** Some identifier reaches itself along at least one edge. *)
Definition cyclic (ts : list Task) : Prop := ∃ x, tc (edge ts) x x.

(** Some task of the list with identifier [x] declares [y]. *)
Definition depends (ts : list Task) (x y : string) : Prop :=
  ∃ t, t ∈ ts ∧ id t = x ∧ y ∈ dependencies t.

(** [x] names no task of the list. *)
Definition dangling (ts : list Task) (x : string) : Prop := find_task ts x = None.

(** The list with every dangling dependency taken out. *)
Definition prune_task (ts : list Task) (t : Task) : Task :=
  mkTask (id t) (title t)
         (filter (λ d, is_Some (find_task ts d)) (dependencies t))
         (estimatedEffort t) (agent t).

Definition prune (ts : list Task) : list Task := map (prune_task ts) ts.

(** [x] is in bucket [i]. *)
Definition placed (lv : list (list string)) (x : string) (i : nat) : Prop :=
  ∃ bucket, lv !! i = Some bucket ∧ x ∈ bucket.

(** Every task sits strictly after each of its dependencies that names a
    task of the list. *)
Definition levels_ordered (d : DAG) : Prop :=
  ∀ t i dep, t ∈ tasks d → placed (levels d) (id t) i →
    dep ∈ dependencies t → is_Some (find_task (tasks d) dep) →
    ∃ j, (j < i)%nat ∧ placed (levels d) dep j.

(** *** Invariants of the traversal *)

(** Identifiers of [mentioned ts] that are neither done nor in progress. *)
Definition unexplored (ts : list Task) (st : Walk) : nat :=
  size (mentioned ts ∖ (st_visited st ∪ st_inProgress st)).

(** No identifier carries both marks and, as long as no back edge was seen,
    the identifiers that are done are closed under [edge] and lie on no
    cycle. *)
Definition settled (ts : list Task) (st : Walk) : Prop :=
  st_visited st ## st_inProgress st ∧
  (st_hasCycles st = false →
     (∀ x y, x ∈ st_visited st → edge ts x y → y ∈ st_visited st) ∧
     (∀ x, x ∈ st_visited st → ¬ tc (edge ts) x x)).

(** Every identifier in progress reaches [x]: these are the callers of
    [visit x] on the recursion stack. *)
Definition on_stack (ts : list Task) (st : Walk) (x : string) : Prop :=
  ∀ g, g ∈ st_inProgress st → tc (edge ts) g x.

(** Dangling identifiers are never in progress when [visit] is called, and
    the dangling dependencies of what is done are done. *)
Definition dangling_done (ts : list Task) (st : Walk) : Prop :=
  ∀ a d, a ∈ st_visited st → edge ts a d → dangling ts d → d ∈ st_visited st.

Definition stack_found (ts : list Task) (st : Walk) : Prop :=
  ∀ g, g ∈ st_inProgress st → ¬ dangling ts g.

(** What is done has been put in a bucket, and the buckets hold nothing
    but identifiers the list mentions. *)
Definition buckets_ok (ts : list Task) (st : Walk) : Prop :=
  (∀ x, x ∈ st_visited st → x ∈ concat (st_levels st)) ∧
  (∀ x, x ∈ concat (st_levels st) → x ∈ mentioned ts).

(** *** Inputs used in the statements below *)

Definition task (i : string) (deps : list string) : Task := mkTask i "" deps "" "".

(** The list of end-to-end scenario 3. *)
Definition chain : list Task :=
  [task "t1" []; task "t2" ["t1"]; task "t3" ["t2"]].

Definition root_after_dependency : list Task := [task "a" []; task "b" ["a"]].

Definition with_dangling : list Task := [task "a" ["x"]].

Definition mutual : list Task := [task "A" ["B"]; task "B" ["A"]].

Definition text_service (c : ComplexityType) (ts : list Task) : Oracle :=
  mkOracle (λ _, Return c) (λ _, Return ts).

End Graph.

(** ** Notions the further properties of the state machine are stated with *)

Module Lifecycle.

Import IssueFSM.

(** A call on an [IssueFSM] object. *)
Inductive Op :=
  | Initialize (now : Z)
  | Transition (now : Z) (toState : IssueState) (reason : option string).

Definition perform (op : Op) : M FSM unit :=
  match op with
  | Initialize now => initialize now
  | Transition now toState reason => transition now toState reason
  end.

(** The object after a caller made the calls one after the other, going on
    when one of them threw. *)
Fixpoint perform_all (ops : list Op) (fsm : FSM) : FSM :=
  match ops with
  | [] => fsm
  | op :: rest => perform_all rest (perform op fsm).1
  end.

(** The records of [h] lead from [first] to [last], each starting where the
    one before ended. *)
Fixpoint chained (first : IssueState) (h : list StateTransition) (last : IssueState)
  : Prop :=
  match h with
  | [] => first = last
  | t :: rest => from t = first ∧ chained (to t) rest last
  end.

(** The transitions that [state-changed] events announced, in order. *)
Definition announced (events : list Event) : list StateTransition :=
  omap (λ e, match e with state_changed t => Some t | _ => None end) events.

(** The labels that [transition] treats as state labels. *)
Definition state_labels (l : list string) : list string :=
  filter (λ x, startsWith x "state:" = true) l.

Definition priority_labels (l : list string) : list string :=
  filter (λ x, startsWith x "priority:" = true) l.

(** One step along the cycle pending, in_progress, review, done, closed of
    the transition table, entered from new. *)
Definition onward (s : IssueState) : IssueState :=
  match s with
  | new => pending
  | pending => in_progress
  | in_progress => review
  | review => done
  | done => closed
  | closed => pending
  end.

(** [n] transitions, each to the [onward] state. *)
Fixpoint onward_ops (n : nat) (s : IssueState) : list Op :=
  match n with
  | O => []
  | S n' => Transition 0 (onward s) None :: onward_ops n' (onward s)
  end.

End Lifecycle.

(** ** Notions the further properties of the pipeline are stated with *)

Module Registry.

Import IssueFSM AgentPipeline.

(** [registerAgent] called for each agent of [l] in turn. *)
Fixpoint register_all (l : list Agent) (p : Pipeline) : Pipeline :=
  match l with
  | [] => p
  | agent :: rest => register_all rest (registerAgent agent p).1
  end.

(** The events [processIssue] emits that report a failure. *)
Definition is_failure (e : AgentPipeline.Event) : bool :=
  match e with
  | pipeline_error _ | fsm_error _ => true
  | _ => false
  end.

End Registry.

(** ** Notions the further properties of the task graph are stated with *)

Module Buckets.

Import Coordinator.

(** No identifier carries both marks, and the buckets hold the identifiers
    that are done, each once. *)
Definition exact (st : Walk) : Prop :=
  st_visited st ## st_inProgress st ∧
  NoDup (concat (st_levels st)) ∧
  ∀ x, x ∈ concat (st_levels st) ↔ x ∈ st_visited st.

(** Every bucket of [lv] is within the bucket of [lv'] at the same index. *)
Definition grown (lv lv' : list (list string)) : Prop :=
  ∀ j b, lv !! j = Some b → ∃ b', lv' !! j = Some b' ∧ ∀ x, x ∈ b → x ∈ b'.

(** Every bucket from index [k] on holds something. *)
Definition filled_from (k : nat) (lv : list (list string)) : Prop :=
  ∀ j b, (k ≤ j)%nat → lv !! j = Some b → b ≠ [].

(** The levels that hold the single bucket [b], none when [b] is empty. *)
Definition bucket (b : list string) : list (list string) :=
  match b with
  | [] => []
  | _ => [b]
  end.

End Buckets.

(** * Properties of the task graph builder *)

Module DAGProps.

Import Coordinator Graph.

Lemma for_each_ind (f : string → Walk → option Walk)
    (J : list string → Walk → Prop) (l : list string) :
  ∀ seen st st',
    for_each f l st = Some st' →
    J seen st →
    (∀ seen d s s', d ∈ l → J seen s → f d s = Some s' → J (seen ++ [d]) s') →
    J (seen ++ l) st'.
Proof.
  induction l as [|a l IH]; intros seen st st' Hrun Hst Hstep; simpl in Hrun.
  - simplify_eq. by rewrite app_nil_r.
  - destruct (f a st) as [s1|] eqn:Ha; [|done].
    replace (seen ++ a :: l) with ((seen ++ [a]) ++ l) by by rewrite <- app_assoc.
    eapply IH; [done| |].
    + eapply Hstep; [|done..]. left.
    + intros ? d ? ? Hd. apply Hstep. by right.
Qed.

Lemma for_each_total (f : string → Walk → option Walk) (J : Walk → Prop)
    (l : list string) :
  ∀ st,
    J st →
    (∀ d s, d ∈ l → J s → ∃ s', f d s = Some s' ∧ J s') →
    ∃ st', for_each f l st = Some st'.
Proof.
  induction l as [|a l IH]; intros st Hst Hstep; simpl; [by eexists|].
  destruct (Hstep a st) as (s1 & -> & H1); [left|done|].
  apply IH; [done|]. intros d s Hd. apply Hstep. by right.
Qed.

(** *** Buckets *)

Lemma elem_of_concat (x : string) (l : list (list string)) :
  x ∈ concat l ↔ ∃ b, b ∈ l ∧ x ∈ b.
Proof.
  rewrite list_elem_of_In, in_concat.
  split; intros (b & Hb & Hx); exists b; by rewrite ?list_elem_of_In in *.
Qed.

Lemma elem_of_concat_reverse (x : string) (l : list (list string)) :
  x ∈ concat (reverse l) ↔ x ∈ concat l.
Proof.
  rewrite !elem_of_concat. by setoid_rewrite elem_of_reverse.
Qed.

Lemma elem_of_concat_alter (x y : string) (l : list (list string)) :
  ∀ k, (k < length l)%nat →
    x ∈ concat (alter (λ b, b ++ [y]) k l) ↔ x ∈ concat l ∨ x = y.
Proof.
  induction l as [|b l IH]; intros k Hk; simpl in Hk; [lia|].
  destruct k as [|k].
  - simpl. rewrite !elem_of_app, list_elem_of_singleton. tauto.
  - specialize (IH k ltac:(lia)). simpl in *. rewrite !elem_of_app, IH. tauto.
Qed.

Lemma elem_of_addToLevel (x y : string) lv level :
  x ∈ concat (addToLevel lv level y) ↔ x ∈ concat lv ∨ x = y.
Proof.
  unfold addToLevel, grow. rewrite elem_of_concat_alter.
  - rewrite concat_app, elem_of_app.
    assert (∀ n, concat (replicate n ([] : list string)) = []) as ->
      by (induction n; simpl; auto).
    rewrite elem_of_nil. tauto.
  - rewrite length_app, length_replicate. lia.
Qed.

Section Traversal.
Variable ts : list Task.

(** What a call of [visit] leaves of the closure variables. *)
Lemma visit_frame fuel :
  ∀ x lvl st st', visit fuel ts x lvl st = Some st' →
    st_inProgress st' = st_inProgress st ∧
    st_visited st ⊆ st_visited st' ∧
    (st_hasCycles st = true → st_hasCycles st' = true) ∧
    (st_hasCycles st' = false → x ∈ st_visited st') ∧
    (x ∉ st_inProgress st → x ∈ st_visited st').
Proof.
  induction fuel as [|fuel IH]; intros x lvl st st' Hv; simpl in Hv; [done|].
  case_decide as Hgrey; [by simplify_eq|].
  case_decide as Hblack; [by simplify_eq|].
  destruct (for_each _ _ _) as [st2|] eqn:Hloop; [|done]. simplify_eq. simpl.
  pose (J := λ (_ : list string) (s : Walk),
             st_inProgress s = {[x]} ∪ st_inProgress st ∧
             st_visited st ⊆ st_visited s ∧
             (st_hasCycles st = true → st_hasCycles s = true)).
  assert (J ([] ++ deps_of ts x) st2) as (HP & HV & HC).
  { eapply (for_each_ind _ J); [exact Hloop|by unfold J|].
    intros sn d s s' _ (HP & HV & HC) Hd.
    apply IH in Hd as (HP' & HV' & HC' & _ & _). unfold J.
    split_and!; [congruence|set_solver|auto]. }
  split_and!; [set_solver|set_solver|done|set_solver|set_solver].
Qed.

(** *** Termination *)

Lemma task_mentioned t : t ∈ ts → id t ∈ mentioned ts.
Proof.
  intros Ht. unfold mentioned. apply elem_of_union_l, elem_of_list_to_set.
  apply list_elem_of_In, in_map, list_elem_of_In, Ht.
Qed.

Lemma find_task_Some x t : find_task ts x = Some t → t ∈ ts ∧ id t = x.
Proof.
  unfold find_task. intros [Hin Hid]%find_some.
  apply bool_decide_eq_true in Hid. by rewrite list_elem_of_In.
Qed.

Lemma find_task_None x : find_task ts x = None → ∀ t, t ∈ ts → id t ≠ x.
Proof.
  unfold find_task. intros Hnone t Ht%list_elem_of_In Hid.
  pose proof (find_none _ _ Hnone t Ht) as Hf. simpl in Hf.
  by apply bool_decide_eq_false in Hf.
Qed.

Lemma find_task_is_Some x : is_Some (find_task ts x) ↔ ∃ t, t ∈ ts ∧ id t = x.
Proof.
  split.
  - intros [t Ht]. exists t. by apply find_task_Some.
  - intros (t & Ht & Hid). destruct (find_task ts x) eqn:Hf; [by eexists|].
    by destruct (find_task_None _ Hf t Ht).
Qed.

Lemma edge_mentioned x y : edge ts x y → y ∈ mentioned ts.
Proof.
  unfold edge, deps_of. destruct (find_task ts x) as [t|] eqn:Hf.
  - intros Hy. apply find_task_Some in Hf as [Ht _].
    unfold mentioned. apply elem_of_union_r, elem_of_list_to_set.
    apply list_elem_of_In, in_concat. exists (dependencies t).
    split; [apply in_map|]; by apply list_elem_of_In.
  - by intros ?%elem_of_nil.
Qed.

Lemma edge_source x y : edge ts x y → ∃ t, t ∈ ts ∧ id t = x.
Proof.
  unfold edge, deps_of. destruct (find_task ts x) as [t|] eqn:Hf.
  - intros _. exists t. by apply find_task_Some.
  - by intros ?%elem_of_nil.
Qed.

Lemma visit_terminates fuel :
  ∀ x lvl st, x ∈ mentioned ts → (unexplored ts st < fuel)%nat →
    is_Some (visit fuel ts x lvl st).
Proof.
  induction fuel as [|fuel IH]; intros x lvl st Hx Hfuel; [lia|]. simpl.
  case_decide as Hgrey; [by eexists|].
  case_decide as Hblack; [by eexists|].
  set (st1 := mkWalk _ _ _ _).
  assert (unexplored ts st1 < unexplored ts st)%nat as Hless.
  { unfold unexplored, st1. simpl. apply subset_size.
    split; [set_solver|]. intros Hsub. specialize (Hsub x). set_solver. }
  destruct (for_each_total (λ dep, visit fuel ts dep (S lvl))
              (λ s, (unexplored ts s ≤ unexplored ts st1)%nat) (deps_of ts x) st1)
    as [st2 ->]; [done| |by eexists].
  intros d s Hd Hs.
  destruct (IH d (S lvl) s) as [s' Hs']; [by eapply edge_mentioned|lia|].
  exists s'. split; [done|].
  apply visit_frame in Hs' as (HP & HV & _).
  etrans; [|exact Hs]. unfold unexplored. apply subseteq_size.
  rewrite HP. set_solver.
Qed.

Lemma visit_all_terminates fuel roots :
  ∀ st, roots ⊆ ts → (unexplored ts st < fuel)%nat → is_Some (visit_all fuel ts roots st).
Proof.
  induction roots as [|r roots IH]; intros st Hroots Hfuel; simpl; [by eexists|].
  case_decide; [apply IH; [set_solver|done]|].
  destruct (visit_terminates fuel (id r) 0 st) as [st' Hst'];
    [apply task_mentioned; set_solver|done|].
  rewrite Hst'. apply IH; [set_solver|].
  apply visit_frame in Hst' as (HP & HV & _).
  eapply Nat.le_lt_trans; [|exact Hfuel]. unfold unexplored. apply subseteq_size.
  rewrite HP. set_solver.
Qed.


(** *** Cycle detection is complete *)

Lemma closed_tc (V : gset string) x y :
  (∀ a b, a ∈ V → edge ts a b → b ∈ V) → x ∈ V → tc (edge ts) x y → y ∈ V.
Proof. intros Hcl Hx Hxy. induction Hxy; eauto. Qed.

Lemma visit_settled fuel :
  ∀ x lvl st st', visit fuel ts x lvl st = Some st' →
    settled ts st → settled ts st'.
Proof.
  induction fuel as [|fuel IH]; intros x lvl st st' Hv Hst; simpl in Hv; [done|].
  case_decide as Hgrey.
  { simplify_eq. destruct Hst as [Hdisj _]. by split. }
  case_decide as Hblack; [by simplify_eq|].
  destruct (for_each _ _ _) as [st2|] eqn:Hloop; [|done]. simplify_eq.
  pose (J := λ (seen : list string) (s : Walk),
             settled ts s ∧
             st_inProgress s = {[x]} ∪ st_inProgress st ∧
             (st_hasCycles s = false → ∀ d, d ∈ seen → d ∈ st_visited s)).
  assert (J ([] ++ deps_of ts x) st2) as ((Hdisj & Hinv) & HP & Hdeps).
  { eapply (for_each_ind _ J); [exact Hloop| |].
    - unfold J. split_and!; [|done|by intros _ d ?%elem_of_nil].
      destruct Hst as [Hdisj Hinv]. split; simpl; [set_solver|done].
    - intros sn d s s' _ (Hs & HP & Hseen) Hd.
      pose proof (visit_frame _ _ _ _ _ Hd) as (HP' & HV' & HC' & Hin' & _).
      unfold J. split_and!; [by eapply IH|congruence|].
      intros Hflag e [He| ->%list_elem_of_singleton]%elem_of_app; [|by auto].
      apply HV', Hseen; [|done]. destruct (st_hasCycles s); [|done].
      by rewrite HC' in Hflag. }
  simpl in Hdeps. split; simpl; [set_solver|].
  intros Hflag. destruct (Hinv Hflag) as [Hcl Hacyc].
  assert (∀ y, edge ts x y → y ∈ st_visited st2) as Hx by (intros y Hy; by apply Hdeps).
  split.
  - intros a b [->%elem_of_singleton|Ha]%elem_of_union Hab; [set_solver|].
    apply elem_of_union_r. by eapply Hcl.
  - intros a [->%elem_of_singleton|Ha]%elem_of_union Hcyc; [|by eapply Hacyc].
    assert (x ∈ st_visited st2); [|set_solver].
    inversion Hcyc as [? ? Hxx|? y ? Hxy Hyx]; subst; [by apply Hx|].
    eapply closed_tc; [exact Hcl| |exact Hyx]. by apply Hx.
Qed.

(** *** Cycle detection is sound *)

Lemma visit_sound fuel :
  ∀ x lvl st st', visit fuel ts x lvl st = Some st' →
    on_stack ts st x → st_hasCycles st' = true →
    st_hasCycles st = true ∨ cyclic ts.
Proof.
  induction fuel as [|fuel IH]; intros x lvl st st' Hv Hst Hflag; simpl in Hv; [done|].
  case_decide as Hgrey.
  { right. exists x. by apply Hst. }
  case_decide as Hblack; [left; by simplify_eq|].
  destruct (for_each _ _ _) as [st2|] eqn:Hloop; [|done]. simplify_eq.
  simpl in Hflag.
  pose (J := λ (_ : list string) (s : Walk),
             st_inProgress s = {[x]} ∪ st_inProgress st ∧
             (st_hasCycles s = true → st_hasCycles st = true ∨ cyclic ts)).
  assert (J ([] ++ deps_of ts x) st2) as (_ & Hres); [|by apply Hres].
  eapply (for_each_ind _ J); [exact Hloop|unfold J; simpl; by auto|].
  intros sn d s s' Hin (HP & HC) Hd.
  pose proof (visit_frame _ _ _ _ _ Hd) as (HP' & _).
  unfold J. split; [congruence|]. intros Hs'.
  destruct (IH _ _ _ _ Hd); [|done|by auto|by right].
  intros g. rewrite HP. intros [->%elem_of_singleton|Hg]%elem_of_union.
  - by apply tc_once.
  - eapply tc_r; [by apply Hst|done].
Qed.

(** *** The loop over the roots *)

Lemma visit_all_spec fuel roots :
  ∀ st st', visit_all fuel ts roots st = Some st' →
    st_inProgress st = ∅ → settled ts st →
    st_inProgress st' = ∅ ∧ settled ts st' ∧
    st_visited st ⊆ st_visited st' ∧
    (∀ r, r ∈ roots → id r ∈ st_visited st') ∧
    (st_hasCycles st' = true → st_hasCycles st = true ∨ cyclic ts).
Proof.
  induction roots as [|r roots IH]; intros st st' Hv HP Hst; simpl in Hv.
  { simplify_eq. split_and!; [done..|by intros r ?%elem_of_nil|by left]. }
  case_decide as Hblack.
  - destruct (IH _ _ Hv HP Hst) as (HP' & Hst' & HV' & Hroots & Hsound).
    split_and!; [done..| |done].
    intros r' [->|Hr']%elem_of_cons; [set_solver|by apply Hroots].
  - destruct (visit _ _ _ _ _) as [st1|] eqn:Hr; [|done].
    pose proof (visit_frame _ _ _ _ _ Hr) as (HP1 & HV1 & HC1 & _ & Hin1).
    destruct (IH _ _ Hv) as (HP' & Hst' & HV' & Hroots & Hsound);
      [congruence|by eapply visit_settled|].
    split_and!; [done|done|set_solver| |].
    + intros r' [->|Hr']%elem_of_cons; [|by apply Hroots].
      apply HV', Hin1. rewrite HP. set_solver.
    + intros Hflag. destruct (Hsound Hflag) as [H1|]; [|by right].
      eapply visit_sound; [exact Hr| |done].
      intros g. rewrite HP. set_solver.
Qed.

(** *** What ends up in the buckets *)

Lemma visit_buckets fuel :
  ∀ x lvl st st', visit fuel ts x lvl st = Some st' →
    x ∈ mentioned ts → buckets_ok ts st → buckets_ok ts st'.
Proof.
  induction fuel as [|fuel IH]; intros x lvl st st' Hv Hx Hst; simpl in Hv; [done|].
  case_decide as Hgrey; [by simplify_eq|].
  case_decide as Hblack; [by simplify_eq|].
  destruct (for_each _ _ _) as [st2|] eqn:Hloop; [|done]. simplify_eq.
  assert (buckets_ok ts st2) as [Hplaced Hment].
  { eapply (for_each_ind _ (λ _, buckets_ok ts) _ []); [exact Hloop|done|].
    intros _ d s s' Hd Hs Hvd. eapply IH; [exact Hvd| |done].
    by eapply edge_mentioned. }
  split; simpl; intros y; rewrite elem_of_addToLevel.
  - intros [->%elem_of_singleton|Hy]%elem_of_union; auto.
  - intros [Hy| ->]; auto.
Qed.

Lemma visit_dangling fuel :
  ∀ x lvl st st', visit fuel ts x lvl st = Some st' →
    stack_found ts st → dangling_done ts st → dangling_done ts st'.
Proof.
  induction fuel as [|fuel IH]; intros x lvl st st' Hv Hstack Hst; simpl in Hv; [done|].
  case_decide as Hgrey; [by simplify_eq|].
  case_decide as Hblack; [by simplify_eq|].
  destruct (for_each _ _ _) as [st2|] eqn:Hloop; [|done]. simplify_eq.
  pose (J := λ (seen : list string) (s : Walk),
             st_inProgress s = {[x]} ∪ st_inProgress st ∧
             dangling_done ts s ∧
             (∀ d, d ∈ seen → dangling ts d → d ∈ st_visited s)).
  assert (J ([] ++ deps_of ts x) st2) as (HP & Hdone & Hdeps).
  { eapply (for_each_ind _ J); [exact Hloop| |].
    - unfold J. split_and!; [done|done|by intros d ?%elem_of_nil].
    - intros sn d s s' Hin (HPs & Hs & Hseen) Hd.
      pose proof (visit_frame _ _ _ _ _ Hd) as (HP' & HV' & _ & _ & Hin').
      assert (stack_found ts s) as Hfound.
      { intros g. rewrite HPs. intros [->%elem_of_singleton|Hg]%elem_of_union.
        - apply edge_source in Hin as (t & Ht & Hid). intros Hdang.
          by eapply find_task_None.
        - by apply Hstack. }
      unfold J. split_and!; [congruence|by eapply IH|].
      intros e [He| ->%list_elem_of_singleton]%elem_of_app Hdang.
      + by apply HV', Hseen.
      + apply Hin'. intros He. by apply (Hfound d). }
  simpl in Hdeps.
  intros a d. simpl. intros [->%elem_of_singleton|Ha]%elem_of_union Had Hd.
  - apply elem_of_union_r. by apply Hdeps.
  - apply elem_of_union_r. by eapply Hdone.
Qed.

Lemma visit_all_buckets fuel roots :
  ∀ st st', visit_all fuel ts roots st = Some st' → roots ⊆ ts →
    st_inProgress st = ∅ → buckets_ok ts st → dangling_done ts st →
    buckets_ok ts st' ∧ dangling_done ts st'.
Proof.
  induction roots as [|r roots IH]; intros st st' Hv Hsub HP Hb Hd; simpl in Hv.
  { by simplify_eq. }
  case_decide as Hblack; [eapply IH; eauto; set_solver|].
  destruct (visit _ _ _ _ _) as [st1|] eqn:Hr; [|done].
  pose proof (visit_frame _ _ _ _ _ Hr) as (HP1 & _).
  eapply IH; [exact Hv|set_solver|congruence| |].
  - eapply visit_buckets; [exact Hr| |done]. apply task_mentioned. set_solver.
  - eapply visit_dangling; [exact Hr| |done]. intros g. rewrite HP. set_solver.
Qed.

End Traversal.

(** The bound [enough] is enough: [buildDAG] is the result of the traversal. *)
Lemma buildDAG_fuel_enough ts : buildDAG_fuel (enough ts) ts = Some (buildDAG ts).
Proof.
  unfold buildDAG, buildDAG_fuel.
  destruct (visit_all_terminates ts (enough ts) ts start) as [st ->]; [done| |done].
  unfold enough, unexplored. apply Nat.lt_succ_r, subseteq_size. set_solver.
Qed.

(** The cycle flag is raised exactly for the lists that have a cycle. *)
Lemma hasCycles_iff_cyclic ts : hasCycles (buildDAG ts) = true ↔ cyclic ts.
Proof.
  pose proof (buildDAG_fuel_enough ts) as Hrun. unfold buildDAG_fuel in Hrun.
  destruct (visit_all _ _ _ _) as [st|] eqn:Hall; [|done].
  injection Hrun as <-. simpl.
  destruct (visit_all_spec ts _ _ _ _ Hall) as (_ & [_ Hinv] & _ & Hroots & Hsound);
    [done|split; simpl; [set_solver|by split; set_solver]|].
  split.
  - intros Hflag. by destruct (Hsound Hflag).
  - intros [x Hx]. destruct (st_hasCycles st) eqn:Hflag; [done|].
    destruct (Hinv eq_refl) as [_ Hacyc]. destruct (Hacyc x); [|done].
    assert (∃ y, edge ts x y) as [y Hy] by (inversion Hx; eauto).
    apply edge_source in Hy as (t & Ht & <-). by apply Hroots.
Qed.


(** The buckets hold identifiers the list mentions, and every dangling
    dependency of a task the traversal finds is among them. *)
Lemma buildDAG_buckets ts :
  (∀ x, x ∈ concat (levels (buildDAG ts)) → x ∈ mentioned ts) ∧
  (∀ a x, edge ts a x → dangling ts x → x ∈ concat (levels (buildDAG ts))).
Proof.
  pose proof (buildDAG_fuel_enough ts) as Hrun. unfold buildDAG_fuel in Hrun.
  destruct (visit_all _ _ _ _) as [st|] eqn:Hall; [|done].
  injection Hrun as <-. simpl.
  destruct (visit_all_spec ts _ _ _ _ Hall) as (_ & _ & _ & Hroots & _);
    [done|split; simpl; [set_solver|by split; set_solver]|].
  destruct (visit_all_buckets ts _ _ _ _ Hall) as ([Hplaced Hment] & Hdone);
    [done|done|split; simpl; set_solver|by intros a d ?%elem_of_empty|].
  split; intros ?; [|intros x]; rewrite elem_of_concat_reverse; [by auto|].
  intros Hax Hx. apply Hplaced. eapply Hdone; [|exact Hax|exact Hx].
  apply edge_source in Hax as (t & Ht & <-). by apply Hroots.
Qed.

(** *** Pruning dangling dependencies *)

Lemma find_task_prune ts x :
  find_task (prune ts) x = prune_task ts <$> find_task ts x.
Proof.
  unfold find_task, prune.
  assert (∀ t, id (prune_task ts t) = id t) as Hf by done.
  revert Hf. generalize (prune_task ts).
  intros f Hf. induction ts as [|t l IH]; simpl; [done|].
  rewrite Hf. case_bool_decide; [done|]. apply IH.
Qed.

Lemma edge_prune ts x y :
  edge (prune ts) x y ↔ edge ts x y ∧ ¬ dangling ts y.
Proof.
  unfold edge, deps_of, dangling. rewrite find_task_prune.
  destruct (find_task ts x) as [t|]; simpl.
  - rewrite list_elem_of_filter, <- not_eq_None_Some. tauto.
  - rewrite elem_of_nil. tauto.
Qed.

Lemma tc_edge_prune ts x y :
  tc (edge ts) x y → ¬ dangling ts y → tc (edge (prune ts)) x y.
Proof.
  induction 1 as [x y Hxy|x z y Hxz Hzy IH]; intros Hy.
  - apply tc_once, edge_prune. auto.
  - eapply tc_l; [|by apply IH]. apply edge_prune. split; [done|].
    assert (∃ w, edge ts z w) as [w Hw] by (inversion Hzy; eauto).
    apply edge_source in Hw as (t & Ht & Hid). intros Hz.
    by eapply find_task_None.
Qed.

Lemma cyclic_prune ts : cyclic (prune ts) ↔ cyclic ts.
Proof.
  split; intros [x Hx]; exists x.
  - apply (tc_congruence (λ a, a) (edge ts)) in Hx; [done|].
    intros a b Hab. by apply edge_prune in Hab as [? _].
  - apply tc_edge_prune; [done|].
    assert (∃ w, edge ts x w) as [w Hw] by (inversion Hx; eauto).
    apply edge_source in Hw as (t & Ht & Hid). intros Hz.
    by eapply find_task_None.
Qed.

(** *** Fuel beyond the bound changes nothing *)

Lemma for_each_mono (f g : string → Walk → option Walk) l :
  (∀ d s r, f d s = Some r → g d s = Some r) →
  ∀ st r, for_each f l st = Some r → for_each g l st = Some r.
Proof.
  intros Hfg. induction l as [|d l IH]; intros st r; simpl; [done|].
  destruct (f d st) as [s|] eqn:Hf; [|done]. rewrite (Hfg _ _ _ Hf). apply IH.
Qed.

Lemma visit_mono ts fuel :
  ∀ fuel' x lvl st r, (fuel ≤ fuel')%nat →
    visit fuel ts x lvl st = Some r → visit fuel' ts x lvl st = Some r.
Proof.
  induction fuel as [|fuel IH]; intros [|fuel'] x lvl st r Hle; simpl; [done|done|lia|].
  case_decide; [done|]. case_decide; [done|].
  destruct (for_each _ _ _) as [st2|] eqn:Hloop; [|done].
  erewrite for_each_mono; [done| |exact Hloop].
  intros d s r'. apply IH. lia.
Qed.

Lemma visit_all_mono ts fuel fuel' roots :
  (fuel ≤ fuel')%nat →
  ∀ st r, visit_all fuel ts roots st = Some r → visit_all fuel' ts roots st = Some r.
Proof.
  intros Hle. induction roots as [|t roots IH]; intros st r; simpl; [done|].
  case_decide; [apply IH|].
  destruct (visit fuel _ _ _ _) as [s|] eqn:Hv; [|done].
  rewrite (visit_mono _ _ _ _ _ _ _ Hle Hv). apply IH.
Qed.

(** [buildDAG] returns: any bound from [enough ts] on yields [buildDAG ts]. *)
Lemma buildDAG_returns ts fuel :
  (enough ts ≤ fuel)%nat → buildDAG_fuel fuel ts = Some (buildDAG ts).
Proof.
  intros Hle. pose proof (buildDAG_fuel_enough ts) as Hrun.
  unfold buildDAG_fuel in *.
  destruct (visit_all (enough ts) _ _ _) as [st|] eqn:Hall; [|done].
  by rewrite (visit_all_mono _ _ _ _ Hle _ _ Hall).
Qed.

Lemma acyclic_flag ts : ¬ cyclic ts → hasCycles (buildDAG ts) = false.
Proof.
  intros Hacyc. destruct (hasCycles (buildDAG ts)) eqn:Hflag; [|done].
  by apply hasCycles_iff_cyclic in Hflag.
Qed.

(** With unique identifiers, the edges the traversal follows are the
    declared dependencies. *)
Lemma edge_depends ts x y :
  NoDup (map id ts) → edge ts x y ↔ depends ts x y.
Proof.
  intros Hnd. unfold edge, deps_of, depends. split.
  - destruct (find_task ts x) as [t|] eqn:Hf; [|by intros ?%elem_of_nil].
    apply find_task_Some in Hf as [Ht Hid]. eauto.
  - intros (t & Ht & <- & Hy).
    assert (find_task ts (id t) = Some t) as ->; [|done].
    clear Hy. unfold find_task.
    induction ts as [|t' l IH]; [by apply elem_of_nil in Ht|].
    simpl in *. apply NoDup_cons in Hnd as [Hnotin Hnd].
    apply elem_of_cons in Ht as [->|Ht]; [by rewrite bool_decide_eq_true_2|].
    rewrite bool_decide_eq_false_2; [by apply IH|].
    intros Heq. apply Hnotin. rewrite Heq.
    by apply list_elem_of_In, in_map, list_elem_of_In.
Qed.

Lemma declared_cycle_cyclic ts :
  NoDup (map id ts) → (∃ x, tc (depends ts) x x) → cyclic ts.
Proof.
  intros Hnd [x Hx]. exists x.
  apply (tc_congruence (λ a, a) (edge ts)) in Hx; [done|].
  intros a b. by apply edge_depends.
Qed.

(** ** The claims about the task graph builder *)

(** C1 (the code departs from the claim).  For an acyclic list the cycle
    flag is false, but a task is not always placed after its dependencies:
    on [root_after_dependency], where task [b] depends on task [a] and [a]
    comes first in the list, both are put in the same bucket. *)
Theorem buildDAG_root_after_dependency :
  ¬ cyclic root_after_dependency ∧
  hasCycles (buildDAG root_after_dependency) = false ∧
  levels (buildDAG root_after_dependency) = [["a"; "b"]] ∧
  ¬ levels_ordered (buildDAG root_after_dependency).
Proof.
  assert (buildDAG root_after_dependency
          = mkDAG root_after_dependency [["a"; "b"]] false) as Heq
    by (vm_compute; reflexivity).
  split_and!.
  - intros Hc%hasCycles_iff_cyclic. by rewrite Heq in Hc.
  - by rewrite Heq.
  - by rewrite Heq.
  - rewrite Heq. intros Hord.
    destruct (Hord (task "b" ["a"]) 0%nat "a") as (j & Hj & _); simpl.
    + apply elem_of_cons; right. apply elem_of_cons; by left.
    + exists ["a"; "b"]. split; [done|]. apply elem_of_cons; right.
      apply elem_of_cons; by left.
    + apply elem_of_cons; by left.
    + by eexists.
    + lia.
Qed.

(** C2 (the code departs from the claim).  On the list of scenario 3,
    [buildDAG] reports no cycle but puts the three tasks in one bucket, and
    the plan is a single line that carries the parallel marker. *)
Theorem buildDAG_chain :
  hasCycles (buildDAG chain) = false ∧
  levels (buildDAG chain) = [["t1"; "t2"; "t3"]] ∧
  createExecutionPlan (buildDAG chain) = ["Level 1: t1, t2, t3 (parallel)"].
Proof. by vm_compute. Qed.

(** C3, as claimed, fails: the dangling dependency [x] of [with_dangling]
    is put in a bucket although no task has that identifier. *)
Lemma dangling_dependency_placed :
  ¬ (∀ ts x, x ∈ concat (levels (buildDAG ts)) → ∃ t, t ∈ ts ∧ id t = x).
Proof.
  intros Hall. destruct (Hall with_dangling "x") as (t & Ht & Hid).
  - assert (levels (buildDAG with_dangling) = [["x"]; ["a"]]) as ->
      by (vm_compute; reflexivity).
    simpl. apply elem_of_cons; by left.
  - apply list_elem_of_singleton in Ht as ->. discriminate Hid.
Qed.

(** C3, amended.  A dependency identifier that matches no task is visited
    as a task without dependencies.  It does not affect the cycle flag
    (the flag is that of the list with the dangling dependencies taken
    out), but it is put in a bucket; the buckets hold only identifiers of
    tasks and declared dependencies. *)
Theorem dangling_dependency_is_leaf ts :
  hasCycles (buildDAG ts) = hasCycles (buildDAG (prune ts)) ∧
  (∀ x, x ∈ concat (levels (buildDAG ts)) →
     (∃ t, t ∈ ts ∧ id t = x) ∨ (∃ t, t ∈ ts ∧ x ∈ dependencies t)) ∧
  (∀ a x, edge ts a x → dangling ts x → x ∈ concat (levels (buildDAG ts))).
Proof.
  destruct (buildDAG_buckets ts) as [Hment Hdang]. split_and!; [|clear Hdang|done].
  - pose proof (hasCycles_iff_cyclic ts) as H1.
    pose proof (hasCycles_iff_cyclic (prune ts)) as H2.
    rewrite cyclic_prune in H2.
    destruct (hasCycles (buildDAG ts)), (hasCycles (buildDAG (prune ts)));
      try done; [symmetry|]; tauto.
  - intros x Hx%Hment. unfold mentioned in Hx.
    apply elem_of_union in Hx as [Hx|Hx]; apply elem_of_list_to_set in Hx.
    + left. apply list_elem_of_In, in_map_iff in Hx as (t & Hid & Ht).
      exists t. by rewrite list_elem_of_In.
    + right. apply elem_of_concat in Hx as (b & Hb & Hx).
      apply list_elem_of_In, in_map_iff in Hb as (t & <- & Ht).
      exists t. by rewrite list_elem_of_In.
Qed.

Lemma dangling_dependency_is_leaf_witness :
  edge with_dangling "a" "x" ∧ dangling with_dangling "x" ∧
  "x" ∈ concat (levels (buildDAG with_dangling)).
Proof.
  assert (edge with_dangling "a" "x") as He by (apply elem_of_cons; by left).
  assert (dangling with_dangling "x") as Hd by reflexivity.
  split_and!; [exact He|exact Hd|].
  exact (proj2 (proj2 (dangling_dependency_is_leaf with_dangling)) "a" "x" He Hd).
Defined.

(** C4.  When the list has a cycle, [buildDAG] returns (it does not throw)
    with the cycle flag set, and [execute] posts the failure comment and
    throws: no plan is computed, no result comment or label is posted, and
    no result is returned. *)
Theorem cyclic_list_rejected ai issue c ts calls :
  analyzeComplexity ai issue = Return c →
  decomposeTasks ai issue = Return ts →
  cyclic ts →
  buildDAG_fuel (enough ts) ts = Some (buildDAG ts) ∧
  hasCycles (buildDAG ts) = true ∧
  execute ai issue calls =
    (calls ++ [createComment (number issue) Started;
               createComment (number issue)
                 (Failed "Circular dependency detected in task graph")],
     Throw "Circular dependency detected in task graph").
Proof.
  intros Hc Hts Hcyc%hasCycles_iff_cyclic.
  split_and!; [apply buildDAG_fuel_enough|done|].
  unfold execute, try_catch, bind, post, lift, modify, throw. simpl.
  rewrite Hc, Hts, Hcyc. simpl. by rewrite <- app_assoc.
Qed.

Lemma mutual_cyclic : cyclic mutual.
Proof.
  exists "A". apply (tc_l _ _ "B"); [|apply tc_once]; apply elem_of_cons; by left.
Defined.

Lemma cyclic_list_rejected_witness :
  hasCycles (buildDAG mutual) = true ∧
  (execute (text_service small mutual) (mkGitHubIssue 7 "t" None) []).2 =
    Throw "Circular dependency detected in task graph".
Proof.
  destruct (cyclic_list_rejected (text_service small mutual)
              (mkGitHubIssue 7 "t" None) small mutual []
              eq_refl eq_refl mutual_cyclic) as (_ & Hflag & Hrun).
  split; [exact Hflag|]. rewrite Hrun. reflexivity.
Defined.

End DAGProps.
(** * Properties of the lifecycle state machine *)

Module FSMProps.

Import IssueFSM.

(** *** [distinct] *)

Lemma elem_of_distinct_from seen l x :
  x ∈ distinct_from seen l ↔ x ∈ l ∧ x ∉ seen.
Proof.
  revert seen. induction l as [|y l IH]; intros seen; simpl.
  - rewrite elem_of_nil. tauto.
  - case_bool_decide as Hy.
    + rewrite IH, elem_of_cons. split; [tauto|]. intros [[->|?] ?]; tauto.
    + rewrite !elem_of_cons, IH, elem_of_cons.
      destruct (decide (x = y)) as [->|]; tauto.
Qed.

Lemma elem_of_distinct l x : x ∈ distinct l ↔ x ∈ l.
Proof.
  unfold distinct. rewrite elem_of_distinct_from, elem_of_nil. tauto.
Qed.

Lemma NoDup_distinct_from seen l : NoDup (distinct_from seen l).
Proof.
  revert seen. induction l as [|y l IH]; intros seen; simpl; [constructor|].
  case_bool_decide; [apply IH|]. apply NoDup_cons. split; [|apply IH].
  rewrite elem_of_distinct_from, elem_of_cons. tauto.
Qed.

Lemma NoDup_distinct l : NoDup (distinct l).
Proof. apply NoDup_distinct_from. Qed.

Lemma distinct_from_seen seen l :
  (∀ x, x ∈ l → x ∈ seen) → distinct_from seen l = [].
Proof.
  induction l as [|y l IH]; intros Hl; simpl; [done|].
  rewrite bool_decide_eq_true_2 by (apply Hl; by left).
  apply IH. intros x Hx. apply Hl. by right.
Qed.

Lemma distinct_from_absorb seen l m :
  (∀ x, x ∈ m → x ∈ seen ∨ x ∈ l) →
  distinct_from seen (l ++ m) = distinct_from seen l.
Proof.
  revert seen. induction l as [|y l IH]; intros seen Hm; simpl.
  - apply distinct_from_seen. intros x Hx. destruct (Hm x Hx) as [?|[]%elem_of_nil]; done.
  - case_bool_decide as Hy.
    + apply IH. intros x Hx. destruct (Hm x Hx) as [?|[->|?]%elem_of_cons]; auto.
    + f_equal. apply IH. intros x Hx. rewrite elem_of_cons.
      destruct (Hm x Hx) as [?|[->|?]%elem_of_cons]; auto.
Qed.

Lemma distinct_from_NoDup seen l :
  NoDup l → (∀ x, x ∈ l → x ∉ seen) → distinct_from seen l = l.
Proof.
  revert seen. induction l as [|y l IH]; intros seen Hnd Hl; simpl; [done|].
  apply NoDup_cons in Hnd as [Hy Hnd].
  rewrite bool_decide_eq_false_2 by (apply Hl; by left).
  f_equal. apply IH; [done|]. intros x Hx [->|?]%elem_of_cons; [done|].
  apply (Hl x); [by right|done].
Qed.

Lemma distinct_absorb l m :
  distinct (distinct (l ++ m) ++ m) = distinct (l ++ m).
Proof.
  unfold distinct at 1. rewrite distinct_from_absorb.
  - apply distinct_from_NoDup; [apply NoDup_distinct|]. by intros x _ ?%elem_of_nil.
  - intros x Hx. right. apply elem_of_distinct, elem_of_app. by right.
Qed.

(** *** The transition table *)

Lemma validTransitions_table s s' :
  s' ∈ validTransitions s ↔ (s, s') ∈ transition_table.
Proof.
  destruct s, s'; split; intros H;
    first [ by apply (bool_decide_unpack _)
          | apply (bool_decide_pack _) in H; by vm_compute in H ].
Qed.

Lemma startsWith_state s : startsWith ("state:" +:+ s) "state:" = true.
Proof. unfold startsWith. simpl. by destruct s. Qed.

Lemma filter_state_gone (l : list string) :
  filter (λ x, startsWith x "state:" = true)
         (filter (λ x, startsWith x "state:" = false) l) = [].
Proof.
  induction l as [|x l IH]; [done|]. rewrite filter_cons.
  case_decide as Hx; [|done]. rewrite filter_cons.
  case_decide; [congruence|done].
Qed.

(** ** The claims about the state machine *)

(** C5.  A transition that is not in the table throws the error that names
    the pair, and the object is left as it was: state, labels, history
    (and what was emitted) are unchanged. *)
Theorem transition_rejected now toState reason (fsm : FSM) :
  (state (issue fsm), toState) ∉ transition_table →
  transition now toState reason fsm =
    (fsm, Throw ("Invalid transition from " +:+ state_name (state (issue fsm))
                 +:+ " to " +:+ state_name toState)).
Proof.
  intros Hno. rewrite <- validTransitions_table in Hno.
  unfold transition, bind, read, throw.
  by rewrite bool_decide_eq_false_2.
Qed.

Lemma transition_rejected_witness :
  ((new, done) ∉ transition_table) ∧
  transition 0 done None (create (scenario1 "1" None)) =
    (create (scenario1 "1" None), Throw "Invalid transition from new to done").
Proof.
  assert ((new, done) ∉ transition_table) as Hno
    by (apply (bool_decide_unpack _); by vm_compute).
  split; [exact Hno|].
  exact (transition_rejected 0 done None (create (scenario1 "1" None)) Hno).
Defined.

(** C6.  A transition that is in the table returns; the state is the
    target, the history has exactly one more record, every label that
    starts with [state:] is gone, and the label of the target state is
    appended, so that it is the only state label left. *)
Theorem transition_accepted now toState reason (fsm : FSM) :
  (state (issue fsm), toState) ∈ transition_table →
  ∃ fsm',
    transition now toState reason fsm = (fsm', Return tt) ∧
    state (issue fsm') = toState ∧
    transitionHistory fsm' =
      transitionHistory fsm ++
      [mkStateTransition (state (issue fsm)) toState now reason] ∧
    labels (issue fsm') =
      filter (λ l, startsWith l "state:" = false) (labels (issue fsm))
      ++ ["state:" +:+ state_name toState] ∧
    filter (λ l, startsWith l "state:" = true) (labels (issue fsm'))
      = ["state:" +:+ state_name toState].
Proof.
  intros Hyes. rewrite <- validTransitions_table in Hyes.
  unfold transition, bind, read, update_issue, record_transition, emit, modify.
  rewrite bool_decide_eq_true_2 by done. simpl.
  eexists. split; [reflexivity|]. simpl.
  assert (∀ l : list string,
            filter (λ l, negb (startsWith l "state:") = true) l
            = filter (λ l, startsWith l "state:" = false) l) as Heq.
  { intros l. apply list_filter_iff. intros x. by destruct (startsWith x "state:"). }
  rewrite Heq. split_and!; [done..|].
  rewrite filter_app, filter_state_gone. simpl.
  rewrite filter_cons, decide_True by apply startsWith_state. done.
Qed.

Lemma transition_accepted_witness :
  ((new, closed) ∈ transition_table) ∧
  ∃ fsm', transition 0 closed None (create (scenario1 "1" None)) = (fsm', Return tt) ∧
          state (issue fsm') = closed.
Proof.
  assert ((new, closed) ∈ transition_table) as Hyes
    by (apply (bool_decide_unpack _); by vm_compute).
  split; [exact Hyes|].
  destruct (transition_accepted 0 closed None (create (scenario1 "1" None)) Hyes)
    as (fsm' & Hrun & Hstate & _).
  exists fsm'. split; [exact Hrun|exact Hstate].
Defined.

(** *** Priority and labels *)

Lemma scan_matches text keywords p a :
  scan text keywords p a = if matches text keywords then p else a.
Proof.
  unfold matches. induction keywords as [|k l IH]; simpl; [done|].
  by destruct (includes text k).
Qed.

Lemma assignedPriority_by_tiers text :
  assignedPriority text = priority_by_tiers text.
Proof.
  unfold assignedPriority, priority_by_tiers. rewrite !scan_matches.
  by destruct (matches text critical_keywords), (matches text high_keywords),
    (matches text low_keywords).
Qed.

Lemma matches_keyword text keywords k :
  k ∈ keywords → includes text k = true → matches text keywords = true.
Proof.
  intros Hk Hin. apply existsb_exists. exists k. by rewrite <- list_elem_of_In.
Qed.

Lemma elem_of_push_if c x y l : y ∈ l → y ∈ push_if c x l.
Proof. destruct c; simpl; [|done]. intros. apply elem_of_app. by left. Qed.

Lemma newLabels_state i : ("state:" +:+ state_name (state i)) ∈ newLabels i.
Proof. unfold newLabels. apply elem_of_app. right. by left. Qed.

Lemma newLabels_priority i p :
  priority i = Some p → ("priority:" +:+ priority_name p) ∈ newLabels i.
Proof.
  intros Hp. unfold newLabels. rewrite Hp. apply elem_of_app. left.
  do 6 apply elem_of_push_if. by left.
Qed.

Lemma newLabels_set_labels l i : newLabels (set_labels l i) = newLabels i.
Proof. reflexivity. Qed.

Lemma addAutoLabels_run (fsm : FSM) :
  addAutoLabels fsm =
    (mkFSM (set_labels (distinct (labels (issue fsm) ++ newLabels (issue fsm)))
                       (issue fsm))
           (transitionHistory fsm)
           (emitted fsm ++
            [labels_updated (distinct (labels (issue fsm) ++ newLabels (issue fsm)))]),
     Return tt).
Proof. reflexivity. Qed.

Lemma autoAssignPriority_run (fsm : FSM) :
  autoAssignPriority fsm =
    (mkFSM (set_priority (assignedPriority (text_of (issue fsm))) (issue fsm))
           (transitionHistory fsm)
           (emitted fsm ++ [priority_assigned (assignedPriority (text_of (issue fsm)))]),
     Return tt).
Proof. reflexivity. Qed.

(** C7.  On a record whose state is [new], [initialize] returns with the
    state [pending], one priority assigned, and the labels of that state
    and of that priority among the labels; on the record of scenario 1 the
    priority is [critical] and the labels include [priority:critical],
    [bug] and [state:pending]. *)
Theorem initialize_new :
  (∀ now (fsm : FSM), state (issue fsm) = new →
     ∃ fsm' p,
       initialize now fsm = (fsm', Return tt) ∧
       state (issue fsm') = pending ∧
       priority (issue fsm') = Some p ∧
       "state:pending" ∈ labels (issue fsm') ∧
       ("priority:" +:+ priority_name p) ∈ labels (issue fsm')) ∧
  (∀ now i a,
     ∃ fsm',
       initialize now (create (scenario1 i a)) = (fsm', Return tt) ∧
       state (issue fsm') = pending ∧
       priority (issue fsm') = Some critical ∧
       "priority:critical" ∈ labels (issue fsm') ∧
       "bug" ∈ labels (issue fsm') ∧
       "state:pending" ∈ labels (issue fsm')).
Proof.
  split.
  - intros now [[i t b s p l a] h e] Hnew. simpl in Hnew. subst s.
    set (q := assignedPriority (toLowerCase (t +:+ " " +:+ b))).
    set (i2 := mkIssueData i t b pending (Some q) l a).
    exists (mkFSM (set_labels (distinct (l ++ newLabels i2)) i2)
              (h ++ [mkStateTransition new pending now
                       (Some "Auto-transition from new issue")])
              ((((e ++ [state_changed
                          (mkStateTransition new pending now
                             (Some "Auto-transition from new issue"))])
                 ++ [priority_assigned q])
                ++ [labels_updated (distinct (l ++ newLabels i2))])
               ++ [ready_for_processing
                     (set_labels (distinct (l ++ newLabels i2)) i2)])), q.
    split; [reflexivity|].
    split_and!; [done|done|..]; apply elem_of_distinct, elem_of_app; right.
    + apply (newLabels_state i2).
    + by apply newLabels_priority.
  - intros now i a. eexists. split; [by vm_compute|]. simpl.
    split_and!; [done|done|..]; rewrite !elem_of_cons; auto.
Qed.

Lemma initialize_new_witness :
  ∃ fsm' p,
    initialize 0 (create (scenario1 "1" None)) = (fsm', Return tt) ∧
    state (issue fsm') = pending ∧ priority (issue fsm') = Some p.
Proof.
  destruct (proj1 initialize_new 0%Z (create (scenario1 "1" None)) eq_refl)
    as (fsm' & p & Hrun & Hstate & Hp & _).
  exists fsm', p. split_and!; [exact Hrun|exact Hstate|exact Hp].
Defined.

(** C8.  [autoAssignPriority] sets the priority that the tiers give on the
    lowercased title, a space and the body: critical, else high, else low,
    the first tier with a matching keyword winning, and medium when none
    matches.  A text with a critical keyword and a low keyword gets
    critical. *)
Theorem priority_precedence (fsm : FSM) :
  let text := toLowerCase (title (issue fsm) +:+ " " +:+ body (issue fsm)) in
  autoAssignPriority fsm =
    (mkFSM (set_priority (priority_by_tiers text) (issue fsm))
           (transitionHistory fsm)
           (emitted fsm ++ [priority_assigned (priority_by_tiers text)]),
     Return tt) ∧
  (matches text critical_keywords = false →
   matches text high_keywords = false →
   matches text low_keywords = false →
   priority_by_tiers text = medium) ∧
  (∀ kc kl, kc ∈ critical_keywords → kl ∈ low_keywords →
     includes text kc = true → includes text kl = true →
     priority_by_tiers text = critical).
Proof.
  intros text. split_and!.
  - rewrite autoAssignPriority_run. unfold text_of. fold text.
    by rewrite assignedPriority_by_tiers.
  - unfold priority_by_tiers. by intros -> -> ->.
  - intros kc kl Hkc _ Hc _. unfold priority_by_tiers.
    by rewrite (matches_keyword _ _ _ Hkc Hc).
Qed.

Lemma priority_precedence_witness :
  priority_by_tiers (toLowerCase ("Urgent minor fix" +:+ " " +:+ "")) = critical.
Proof.
  refine (proj2 (proj2 (priority_precedence
            (create (mkIssueData "1" "Urgent minor fix" "" new None [] None))))
            "urgent" "minor" _ _ eq_refl eq_refl).
  - apply elem_of_cons; right. apply elem_of_cons; by left.
  - apply elem_of_cons; right. apply elem_of_cons; by left.
Defined.

(** C9.  Running [addAutoLabels] a second time leaves the labels as the
    first run made them, and no label occurs twice in the result. *)
Theorem addAutoLabels_idempotent (fsm : FSM) :
  ∃ fsm1 fsm2,
    addAutoLabels fsm = (fsm1, Return tt) ∧
    addAutoLabels fsm1 = (fsm2, Return tt) ∧
    labels (issue fsm2) = labels (issue fsm1) ∧
    NoDup (labels (issue fsm1)) ∧
    NoDup (labels (issue fsm2)).
Proof.
  eexists _, _. split; [apply addAutoLabels_run|].
  split; [apply addAutoLabels_run|]. simpl.
  rewrite newLabels_set_labels, distinct_absorb.
  split_and!; [done|apply NoDup_distinct..].
Qed.

End FSMProps.
(** * Properties of the agent pipeline *)

Module PipelineProps.

Import IssueFSM AgentPipeline.

Lemma signalled_app (p : Pipeline) f g l1 l2 :
  signalled (signalled p f l1) g l2 = signalled p g (l1 ++ l2).
Proof. unfold signalled. simpl. by rewrite app_assoc. Qed.

Lemma run_agents_ok l :
  ∀ i (p : Pipeline) f ev out,
    chain l i = Some out →
    run_agents l i (signalled p f ev) = (signalled p f (ev ++ brackets l i), Return out).
Proof.
  induction l as [|a l IH]; intros i p f ev out Hc; simpl in *.
  - simplify_eq. unfold ret. by rewrite app_nil_r.
  - destruct (process a i) as [i'|] eqn:Ha; [|done].
    unfold bind, AgentPipeline.emit, modify, call. simpl. rewrite Ha.
    change (mkPipeline (agents p) f (((AgentPipeline.emitted p ++ ev)
             ++ [agent_start (name a) (id i)]) ++ [agent_complete (name a) (id i')]))
      with (signalled (signalled (signalled p f ev) f [agent_start (name a) (id i)])
              f [agent_complete (name a) (id i')]).
    rewrite !signalled_app, (IH _ _ _ _ _ Hc).
    by rewrite <- !app_assoc.
Qed.

Lemma run_agents_fail pre :
  ∀ a post i ik e (p : Pipeline) f ev,
    chain pre i = Some ik → process a ik = Throw e →
    run_agents (pre ++ a :: post) i (signalled p f ev) =
      (signalled p f (ev ++ brackets pre i ++ [agent_start (name a) (id ik)]), Throw e).
Proof.
  induction pre as [|b pre IH]; intros a post i ik e p f ev Hc Ha; simpl in *.
  - simplify_eq. unfold bind, AgentPipeline.emit, modify, call. simpl. rewrite Ha.
    unfold signalled. simpl. by rewrite <- ?app_assoc.
  - destruct (process b i) as [i'|] eqn:Hb; [|done].
    unfold bind, AgentPipeline.emit, modify, call. simpl. rewrite Hb.
    change (mkPipeline (agents p) f (((AgentPipeline.emitted p ++ ev)
             ++ [agent_start (name b) (id i)]) ++ [agent_complete (name b) (id i')]))
      with (signalled (signalled (signalled p f ev) f [agent_start (name b) (id i)])
              f [agent_complete (name b) (id i')]).
    rewrite !signalled_app, (IH _ _ _ _ _ _ _ _ Hc Ha).
    by rewrite <- !app_assoc.
Qed.

(** A run of the agents either goes through or has a first agent that
    fails. *)
Lemma chain_first_failure l :
  ∀ i, (∃ out, chain l i = Some out) ∨
       (∃ pre a post ik e,
          l = pre ++ a :: post ∧ chain pre i = Some ik ∧ process a ik = Throw e).
Proof.
  induction l as [|a l IH]; intros i; simpl; [left; by eexists|].
  destruct (process a i) as [i'|e] eqn:Ha.
  - destruct (IH i') as [Hok|(pre & b & post & ik & e & -> & Hc & Hb)]; [by left|].
    right. exists (a :: pre), b, post, ik, e. simpl. by rewrite Ha.
  - right. by exists [], a, l, i, e.
Qed.

(** With observers that do not interfere, [initialize] itself returns. *)
Lemma initialize_returns now (f : FSM) : ∃ f', initialize now f = (f', Return tt).
Proof.
  destruct f as [[i t b s p l a] h e].
  destruct s; eexists; reflexivity.
Qed.

(** C10.  The events of the state machine's initialization come first,
    then the agents run in registration order, each on the output of the
    one before.  When initialization fails, or when an agent fails after
    the agents before it succeeded, the pipeline signals the error and
    throws that same error: no further agent is started and no record is
    returned. *)
Theorem processIssue_order_and_failure init i (p : Pipeline) f1 :
  (∀ e, init (IssueFSM.create i) = (f1, Throw e) →
     processIssueWith init i p =
       (signalled p (Some f1)
          (map forward (IssueFSM.emitted f1) ++ [pipeline_error e]),
        Throw e)) ∧
  (∀ pre a post ik e,
     init (IssueFSM.create i) = (f1, Return tt) →
     agents p = pre ++ a :: post →
     chain pre (getIssue f1) = Some ik →
     process a ik = Throw e →
     processIssueWith init i p =
       (signalled p (Some f1)
          (map forward (IssueFSM.emitted f1) ++ brackets pre (getIssue f1)
           ++ [agent_start (name a) (id ik); pipeline_error e]),
        Throw e)) ∧
  (∀ out,
     init (IssueFSM.create i) = (f1, Return tt) →
     chain (agents p) (getIssue f1) = Some out →
     processIssueWith init i p =
       (signalled p (Some f1)
          (map forward (IssueFSM.emitted f1) ++ brackets (agents p) (getIssue f1)
           ++ [pipeline_complete out]),
        Return out)).
Proof.
  assert (∀ r, init (IssueFSM.create i) = (f1, r) →
            on_fsm init (mkPipeline (agents p) (Some (IssueFSM.create i)) (AgentPipeline.emitted p))
            = (signalled p (Some f1) (map forward (IssueFSM.emitted f1)), r)) as Hinit.
  { intros r Hr. unfold on_fsm. simpl. by rewrite Hr. }
  assert (∀ ev, on_fsm (read getIssue) (signalled p (Some f1) ev)
                = (signalled p (Some f1) ev, Return (getIssue f1))) as Hget.
  { intros ev. unfold on_fsm, read, signalled. simpl.
    by rewrite drop_all, app_nil_r. }
  split_and!.
  - intros e He. unfold processIssueWith, try_catch, bind at 1, modify.
    unfold bind at 1. rewrite (Hinit _ He).
    unfold bind, AgentPipeline.emit, modify, throw, signalled. simpl.
    by rewrite <- app_assoc.
  - intros pre a post ik e Hok Hag Hc Ha.
    unfold processIssueWith, try_catch, bind at 1, modify.
    unfold bind at 1. rewrite (Hinit _ Hok).
    unfold bind at 1. rewrite Hget.
    unfold bind at 1, read at 1.
    change (agents (signalled p (Some f1) (map forward (IssueFSM.emitted f1))))
      with (agents p).
    rewrite Hag. unfold bind at 1.
    rewrite (run_agents_fail _ _ _ _ _ _ _ _ _ Hc Ha).
    unfold bind, AgentPipeline.emit, modify, throw, signalled. simpl.
    rewrite Hag. by rewrite <- !app_assoc.
  - intros out Hok Hc.
    unfold processIssueWith, try_catch, bind at 1, modify.
    unfold bind at 1. rewrite (Hinit _ Hok).
    unfold bind at 1. rewrite Hget.
    unfold bind at 1, read at 1.
    change (agents (signalled p (Some f1) (map forward (IssueFSM.emitted f1))))
      with (agents p).
    unfold bind at 1.
    rewrite (run_agents_ok _ _ _ _ _ _ Hc).
    unfold bind, AgentPipeline.emit, modify, ret, signalled. simpl.
    by rewrite <- !app_assoc.
Qed.

Lemma processIssue_order_and_failure_witness :
  (processIssue 0 (scenario1 "1" None)
     (mkPipeline [labeller "a1" "x"; failing "a2" "boom"; labeller "a3" "y"] None [])).2
  = Throw "boom".
Proof.
  pose (f1 := (initialize 0 (IssueFSM.create (scenario1 "1" None))).1).
  unfold processIssue.
  rewrite (proj1 (proj2 (processIssue_order_and_failure (initialize 0)
             (scenario1 "1" None)
             (mkPipeline [labeller "a1" "x"; failing "a2" "boom"; labeller "a3" "y"]
                         None [])
             f1))
           [labeller "a1" "x"] (failing "a2" "boom") [labeller "a3" "y"]
           (set_labels (labels (getIssue f1) ++ ["x"]) (getIssue f1)) "boom"
           eq_refl eq_refl eq_refl eq_refl).
  reflexivity.
Defined.

End PipelineProps.
(** * Further properties of the lifecycle state machine *)

Module LifecycleProps.

Import IssueFSM Lifecycle FSMProps.

(** *** What each call does to the object *)

Lemma transition_run now toState reason (fsm : FSM) :
  transition now toState reason fsm =
    if bool_decide (toState ∈ validTransitions (state (issue fsm))) then
      (mkFSM (set_labels
                (filter (λ l, negb (startsWith l "state:") = true) (labels (issue fsm))
                 ++ ["state:" +:+ state_name toState])
                (set_state toState (issue fsm)))
             (transitionHistory fsm ++
              [mkStateTransition (state (issue fsm)) toState now reason])
             (emitted fsm ++
              [state_changed (mkStateTransition (state (issue fsm)) toState now reason)]),
       Return tt)
    else
      (fsm, Throw ("Invalid transition from " +:+ state_name (state (issue fsm))
                   +:+ " to " +:+ state_name toState)).
Proof.
  unfold transition, bind, read. by case_bool_decide.
Qed.

Lemma initialize_other now (fsm : FSM) :
  state (issue fsm) ≠ new → initialize now fsm = (fsm, Return tt).
Proof.
  intros Hs. unfold initialize, try_catch, bind, read, ret.
  by rewrite decide_False.
Qed.

Lemma initialize_run_new now (fsm : FSM) :
  state (issue fsm) = new →
  let t := mkStateTransition new pending now (Some "Auto-transition from new issue") in
  let q := assignedPriority (text_of (issue fsm)) in
  let i2 := set_priority q (set_state pending (issue fsm)) in
  let ls := distinct (labels (issue fsm) ++ newLabels i2) in
  initialize now fsm =
    (mkFSM (set_labels ls i2)
           (transitionHistory fsm ++ [t])
           ((((emitted fsm ++ [state_changed t]) ++ [priority_assigned q])
             ++ [labels_updated ls]) ++ [ready_for_processing (set_labels ls i2)]),
     Return tt).
Proof.
  destruct fsm as [[i t b s p l a] h e]. simpl. by intros ->.
Qed.

Lemma perform_run op (fsm : FSM) :
  (perform op fsm).1 = fsm ∨
  (∃ now, op = Initialize now ∧ state (issue fsm) = new ∧
          perform op fsm = initialize now fsm) ∨
  (∃ now toState reason,
     op = Transition now toState reason ∧
     toState ∈ validTransitions (state (issue fsm)) ∧
     perform op fsm = transition now toState reason fsm).
Proof.
  destruct op as [now|now toState reason]; simpl.
  - destruct (decide (state (issue fsm) = new)) as [Hs|Hs].
    + right; left. by exists now.
    + left. by rewrite initialize_other.
  - rewrite transition_run. case_bool_decide as Hv.
    + right; right. exists now, toState, reason. by rewrite transition_run, bool_decide_eq_true_2.
    + by left.
Qed.

(** An invariant of the object holds after any calls when it holds at the
    start and the two calls that change the object keep it. *)
Lemma perform_all_ind (P : FSM → Prop) :
  (∀ now fsm, P fsm → state (issue fsm) = new → P (initialize now fsm).1) →
  (∀ now toState reason fsm, P fsm →
     toState ∈ validTransitions (state (issue fsm)) →
     P (transition now toState reason fsm).1) →
  ∀ ops fsm, P fsm → P (perform_all ops fsm).
Proof.
  intros Hinit Htrans. induction ops as [|op ops IH]; intros fsm Hfsm; [done|].
  simpl. apply IH.
  destruct (perform_run op fsm) as [->|[(now & -> & Hs & ->)|(now & t & r & -> & Hv & ->)]];
    auto.
Qed.

(** *** Lists of distinct labels *)

Lemma distinct_from_ext seen seen' l :
  (∀ x, x ∈ l → x ∈ seen ↔ x ∈ seen') →
  distinct_from seen l = distinct_from seen' l.
Proof.
  revert seen seen'. induction l as [|y l IH]; intros seen seen' Hs; simpl; [done|].
  assert (y ∈ seen ↔ y ∈ seen') as Hy by (apply Hs; by left).
  assert (∀ x, x ∈ l → x ∈ seen ↔ x ∈ seen') as Hl by (intros x Hx; apply Hs; by right).
  destruct (decide (y ∈ seen)) as [Hin|Hin].
  - rewrite !bool_decide_eq_true_2 by tauto. by apply IH.
  - rewrite !bool_decide_eq_false_2 by tauto. f_equal. apply IH.
    intros x Hx. rewrite !elem_of_cons, (Hl x Hx). tauto.
Qed.

Lemma distinct_from_app seen l m :
  distinct_from seen (l ++ m) = distinct_from seen l ++ distinct_from (l ++ seen) m.
Proof.
  revert seen. induction l as [|y l IH]; intros seen; simpl; [done|].
  case_bool_decide as Hy.
  - rewrite IH. f_equal. apply distinct_from_ext. intros x _.
    rewrite elem_of_cons, !elem_of_app. split; [tauto|]. intros [->|?]; tauto.
  - simpl. rewrite IH. do 2 f_equal. apply distinct_from_ext. intros x _.
    rewrite !elem_of_cons, !elem_of_app, elem_of_cons. tauto.
Qed.

Lemma filter_distinct_from (P : string → Prop) `{∀ x, Decision (P x)} seen l :
  filter P (distinct_from seen l) = distinct_from seen (filter P l).
Proof.
  revert seen. induction l as [|y l IH]; intros seen; simpl; [done|].
  rewrite (filter_cons P y l). case_bool_decide as Hy.
  - rewrite IH. case_decide; [|done]. simpl. by rewrite bool_decide_eq_true_2.
  - rewrite filter_cons. case_decide as HP.
    + simpl. rewrite bool_decide_eq_false_2 by done. by rewrite IH.
    + rewrite IH. apply distinct_from_ext. intros x Hx%list_elem_of_filter.
      rewrite elem_of_cons. split; [|tauto]. intros [->|?]; [|done]. tauto.
Qed.

Lemma chained_snoc first h last t :
  chained first h last → from t = last → chained first (h ++ [t]) (to t).
Proof.
  revert first. induction h as [|r h IH]; intros first; simpl.
  - by intros -> ->.
  - intros [-> Hh] Ht. split; [done|]. by apply IH.
Qed.

Lemma announced_snoc events e :
  announced (events ++ [e]) =
  announced events ++ match e with state_changed t => [t] | _ => [] end.
Proof.
  unfold announced. rewrite omap_app. f_equal. by destruct e.
Qed.

(** *** Labels of the state and of the text *)

Lemma state_labels_app l m : state_labels (l ++ m) = state_labels l ++ state_labels m.
Proof. apply filter_app. Qed.

Lemma state_labels_push_if c x l :
  startsWith x "state:" = false →
  state_labels (push_if c x l) = state_labels l.
Proof.
  intros Hx. destruct c; simpl; [|done].
  rewrite state_labels_app. unfold state_labels at 2.
  rewrite filter_cons, decide_False by congruence. simpl. by rewrite app_nil_r.
Qed.

Lemma state_labels_newLabels i :
  state_labels (newLabels i) = ["state:" +:+ state_name (state i)].
Proof.
  unfold newLabels. rewrite state_labels_app.
  rewrite !state_labels_push_if by done.
  assert (state_labels (match priority i with
                        | Some p => [] ++ ["priority:" +:+ priority_name p]
                        | None => []
                        end) = []) as ->.
  { destruct (priority i) as [p|]; [|done]. by destruct p. }
  unfold state_labels. rewrite filter_cons, decide_True by apply startsWith_state. done.
Qed.

Lemma state_labels_transition l n :
  state_labels (filter (λ x, negb (startsWith x "state:") = true) l
                ++ ["state:" +:+ n]) = ["state:" +:+ n].
Proof.
  rewrite state_labels_app.
  assert (state_labels (filter (λ x, negb (startsWith x "state:") = true) l) = []) as ->.
  { unfold state_labels. induction l as [|x l IH]; [done|].
    rewrite (filter_cons _ x l). case_decide as Hx; [|done].
    rewrite filter_cons, decide_False; [done|]. by destruct (startsWith x "state:"). }
  unfold state_labels. rewrite filter_cons, decide_True by apply startsWith_state. done.
Qed.

Lemma valid_not_new s toState : toState ∈ validTransitions s → toState ≠ new.
Proof.
  intros Hv ->. apply (bool_decide_pack _) in Hv. by destruct s; vm_compute in Hv.
Qed.

Lemma onward_valid s : onward s ∈ validTransitions s.
Proof. apply (bool_decide_unpack _). by destruct s. Qed.

Lemma onward_ops_state n :
  ∀ (fsm : FSM),
    state (issue (perform_all (onward_ops n (state (issue fsm))) fsm))
    = Nat.iter n onward (state (issue fsm)).
Proof.
  induction n as [|n IH]; intros fsm; [done|].
  rewrite Nat.iter_succ_r. simpl.
  rewrite transition_run, bool_decide_eq_true_2 by apply onward_valid. simpl.
  set (fsm' := mkFSM _ _ _).
  change (onward (state (issue fsm))) with (state (issue fsm')). apply IH.
Qed.

Lemma priority_not_state x :
  startsWith x "priority:" = true → startsWith x "state:" = false.
Proof.
  unfold startsWith. destruct x as [|c x]; [done|].
  destruct c as [[] [] [] [] [] [] [] []]; simpl; try done.
Qed.

Lemma priority_labels_app l m :
  priority_labels (l ++ m) = priority_labels l ++ priority_labels m.
Proof. apply filter_app. Qed.

Lemma priority_labels_push_if c x l :
  startsWith x "priority:" = false →
  priority_labels (push_if c x l) = priority_labels l.
Proof.
  intros Hx. destruct c; simpl; [|done].
  rewrite priority_labels_app. unfold priority_labels at 2.
  rewrite filter_cons, decide_False by congruence. simpl. by rewrite app_nil_r.
Qed.

Lemma priority_labels_state n : priority_labels ["state:" +:+ n] = [].
Proof. unfold priority_labels. by rewrite filter_cons, decide_False. Qed.

Lemma priority_labels_newLabels i p :
  priority i = Some p →
  priority_labels (newLabels i) = ["priority:" +:+ priority_name p].
Proof.
  intros Hp. unfold newLabels. rewrite Hp, priority_labels_app, priority_labels_state.
  rewrite !priority_labels_push_if by done. rewrite app_nil_r. simpl.
  unfold priority_labels. rewrite filter_cons, decide_True; [done|]. by destruct p.
Qed.

Lemma priority_labels_transition l n :
  priority_labels (filter (λ x, negb (startsWith x "state:") = true) l
                   ++ ["state:" +:+ n]) = priority_labels l.
Proof.
  rewrite priority_labels_app, priority_labels_state, app_nil_r.
  unfold priority_labels. induction l as [|x l IH]; [done|].
  rewrite (filter_cons (λ x, negb _ = true) x l), (filter_cons _ x l).
  destruct (decide (startsWith x "priority:" = true)) as [Hp|Hp].
  - rewrite decide_True by (by rewrite priority_not_state).
    rewrite filter_cons, decide_True by done. by rewrite IH.
  - case_decide; [|done]. rewrite filter_cons, decide_False by done. done.
Qed.

(** ** Further properties *)

(** [canTransitionTo] predicts [transition]: it answers true exactly when the
    transition returns, and false exactly when it throws and leaves the
    object as it was. *)
Theorem canTransitionTo_predicts now toState reason (fsm : FSM) :
  (canTransitionTo fsm toState = true ↔
     ∃ fsm', transition now toState reason fsm = (fsm', Return tt)) ∧
  (canTransitionTo fsm toState = false ↔
     ∃ message, transition now toState reason fsm = (fsm, Throw message)).
Proof.
  unfold canTransitionTo. rewrite transition_run.
  destruct (bool_decide _); split; split; try done; eauto.
  - by intros [? ?].
  - by intros [? ?].
Qed.

(** [initialize] acts once: on an object whose state is not [new] it returns
    without changing or emitting anything, and so does a second call after a
    first. *)
Theorem initialize_once now now' (fsm : FSM) :
  (state (issue fsm) ≠ new → initialize now fsm = (fsm, Return tt)) ∧
  initialize now' (initialize now fsm).1 = ((initialize now fsm).1, Return tt).
Proof.
  split; [apply initialize_other|].
  destruct (decide (state (issue fsm) = new)) as [Hs|Hs].
  - rewrite (initialize_run_new _ _ Hs). simpl. by apply initialize_other.
  - rewrite (initialize_other _ _ Hs). simpl. by apply initialize_other.
Qed.

Lemma initialize_once_witness :
  initialize 5 (mkFSM (mkIssueData "7" "t" "b" review None ["x"] None) [] [])
  = (mkFSM (mkIssueData "7" "t" "b" review None ["x"] None) [] [], Return tt).
Proof.
  apply (proj1 (initialize_once 5 5
           (mkFSM (mkIssueData "7" "t" "b" review None ["x"] None) [] []))).
  discriminate.
Defined.

(** Automatic labelling never removes or reorders a label.  [addAutoLabels]
    keeps the labels the record had, in their order (once each), and appends
    new ones that the record did not have; [initialize] keeps every label
    too, a label of an earlier state included. *)
Theorem labels_never_removed :
  (∀ fsm : FSM, ∃ added,
     labels (issue (addAutoLabels fsm).1) = distinct (labels (issue fsm)) ++ added ∧
     (NoDup (labels (issue fsm)) →
        labels (issue (addAutoLabels fsm).1) = labels (issue fsm) ++ added) ∧
     (∀ x, x ∈ added → x ∈ newLabels (issue fsm) ∧ x ∉ labels (issue fsm))) ∧
  (∀ now (fsm : FSM) x,
     x ∈ labels (issue fsm) → x ∈ labels (issue (initialize now fsm).1)).
Proof.
  split.
  - intros fsm. rewrite addAutoLabels_run. simpl.
    exists (distinct_from (labels (issue fsm) ++ []) (newLabels (issue fsm))).
    unfold distinct. rewrite distinct_from_app. split_and!; [done| |].
    + intros Hnd. f_equal. apply distinct_from_NoDup; [done|].
      by intros x _ ?%elem_of_nil.
    + intros x [Hx Hnot]%elem_of_distinct_from. split; [done|].
      by rewrite app_nil_r in Hnot.
  - intros now fsm x Hx.
    destruct (decide (state (issue fsm) = new)) as [Hs|Hs].
    + rewrite (initialize_run_new _ _ Hs). simpl.
      apply elem_of_distinct, elem_of_app. by left.
    + by rewrite (initialize_other _ _ Hs).
Qed.

Lemma labels_never_removed_witness :
  "state:new" ∈ labels (issue (initialize 0
     (create (mkIssueData "1" "t" "b" new None ["state:new"] None))).1).
Proof.
  apply (proj2 labels_never_removed). simpl. apply elem_of_cons. by left.
Defined.

(** Whatever calls are made on a fresh object, its history leads from the
    state the record came with to the current state, each record starting
    where the one before ended, and every record is an edge of the
    transition table. *)
Theorem history_chained i ops :
  chained (state i) (getHistory (perform_all ops (create i)))
          (state (getIssue (perform_all ops (create i)))) ∧
  Forall (λ t, (from t, to t) ∈ transition_table)
         (getHistory (perform_all ops (create i))).
Proof.
  apply (perform_all_ind
           (λ fsm, chained (state i) (transitionHistory fsm) (state (issue fsm)) ∧
                   Forall (λ t, (from t, to t) ∈ transition_table)
                          (transitionHistory fsm))); [| |done].
  - intros now fsm [Hc Hall] Hs. rewrite (initialize_run_new _ _ Hs). simpl. split.
    + eapply (chained_snoc _ _ _ (mkStateTransition new pending now _)); [exact Hc|].
      by rewrite Hs.
    + apply Forall_app. split; [done|]. apply Forall_singleton. simpl.
      apply validTransitions_table. apply elem_of_cons. by left.
  - intros now toState reason fsm [Hc Hall] Hv.
    rewrite transition_run, bool_decide_eq_true_2 by done. simpl. split.
    + by eapply (chained_snoc _ _ _ (mkStateTransition _ toState now reason)).
    + apply Forall_app. split; [done|]. apply Forall_singleton. simpl.
      by apply validTransitions_table.
Qed.

(** Every record of the history was announced by one [state-changed] event,
    and these events come in the order of the history: a subscriber that
    collects them has the history. *)
Theorem history_announced i ops :
  announced (emitted (perform_all ops (create i)))
  = getHistory (perform_all ops (create i)).
Proof.
  apply (perform_all_ind (λ fsm, announced (emitted fsm) = transitionHistory fsm));
    [| |done].
  - intros now fsm Heq Hs. rewrite (initialize_run_new _ _ Hs). simpl.
    rewrite !announced_snoc, Heq. simpl. by rewrite !app_nil_r.
  - intros now toState reason fsm Heq Hv.
    rewrite transition_run, bool_decide_eq_true_2 by done. simpl.
    by rewrite announced_snoc, Heq.
Qed.

(** When a record comes in state [new] without a state label, then after
    [initialize] and any further calls the labels carry exactly one state
    label, that of the current state, and the state is never [new] again. *)
Theorem state_label_tracks_state now i ops :
  state i = new → state_labels (labels i) = [] →
  let fsm := perform_all ops (initialize now (create i)).1 in
  state (issue fsm) ≠ new ∧
  state_labels (labels (issue fsm)) = ["state:" +:+ state_name (state (issue fsm))].
Proof.
  intros Hs Hnone.
  apply (perform_all_ind
           (λ fsm, state (issue fsm) ≠ new ∧
                   state_labels (labels (issue fsm))
                   = ["state:" +:+ state_name (state (issue fsm))])).
  - by intros ? fsm [Hne _] Hnew.
  - intros now' toState reason fsm _ Hv.
    rewrite transition_run, bool_decide_eq_true_2 by done. simpl.
    split; [by eapply valid_not_new|apply state_labels_transition].
  - rewrite (initialize_run_new now (create i) Hs). simpl. split; [done|].
    unfold state_labels, distinct. rewrite filter_distinct_from, filter_app.
    fold (state_labels (labels i)). rewrite Hnone. simpl.
    fold (state_labels (newLabels (set_priority (assignedPriority (text_of (set_state pending i)))
                                      (set_state pending i)))).
    by rewrite state_labels_newLabels.
Qed.

Lemma state_label_tracks_state_witness :
  state_labels (labels (issue (perform_all [Transition 1 in_progress None; Transition 2 review None]
     (initialize 0 (create (scenario1 "1" None))).1)))
  = ["state:review"].
Proof.
  exact (proj2 (state_label_tracks_state 0 (scenario1 "1" None)
                  [Transition 1 in_progress None; Transition 2 review None]
                  eq_refl eq_refl)).
Defined.

(** The transition table as a graph: no transition ends in [new], every
    state has a transition out of it, and from every state every state other
    than [new] can be reached by transitions. *)
Theorem transition_graph :
  (∀ now toState reason (fsm fsm' : FSM),
     transition now toState reason fsm = (fsm', Return tt) → state (issue fsm') ≠ new) ∧
  (∀ fsm : FSM, ∃ toState, canTransitionTo fsm toState = true) ∧
  (∀ (fsm : FSM) target, target ≠ new →
     ∃ ops, state (issue (perform_all ops fsm)) = target).
Proof.
  split_and!.
  - intros now toState reason fsm fsm'. rewrite transition_run.
    case_bool_decide as Hv; [|done]. intros [= <-]. simpl. by eapply valid_not_new.
  - intros fsm. exists (onward (state (issue fsm))). unfold canTransitionTo.
    apply bool_decide_eq_true_2, onward_valid.
  - intros fsm target Htarget.
    assert (∃ n, Nat.iter n onward (state (issue fsm)) = target) as [n Hn].
    { destruct (state (issue fsm)), target; try done;
        first [by exists 0|by exists 1|by exists 2|by exists 3|by exists 4|by exists 5]. }
    exists (onward_ops n (state (issue fsm))). by rewrite onward_ops_state.
Qed.

Lemma transition_graph_witness :
  ∃ ops, state (issue (perform_all ops (create (scenario1 "1" None)))) = done.
Proof.
  apply (proj2 (proj2 transition_graph)). discriminate.
Defined.

(** When a record comes in state [new] without a priority label, then after
    [initialize] and any further calls the priority is the one assigned from
    the text, and the labels carry exactly one priority label, that of this
    priority: transitions leave it alone. *)
Theorem priority_label_tracks_priority now i ops :
  state i = new → priority_labels (labels i) = [] →
  let fsm := perform_all ops (initialize now (create i)).1 in
  priority (issue fsm) = Some (assignedPriority (text_of i)) ∧
  priority_labels (labels (issue fsm))
  = ["priority:" +:+ priority_name (assignedPriority (text_of i))].
Proof.
  intros Hs Hnone.
  apply (perform_all_ind
           (λ fsm, state (issue fsm) ≠ new ∧
                   priority (issue fsm) = Some (assignedPriority (text_of i)) ∧
                   priority_labels (labels (issue fsm))
                   = ["priority:" +:+ priority_name (assignedPriority (text_of i))])).
  - by intros ? fsm [Hne _] Hnew.
  - intros now' toState reason fsm (_ & Hp & Hl) Hv.
    rewrite transition_run, bool_decide_eq_true_2 by done. simpl.
    split_and!; [by eapply valid_not_new|done|]. by rewrite priority_labels_transition.
  - rewrite (initialize_run_new now (create i) Hs). simpl. split_and!; [done..|].
    unfold priority_labels, distinct. rewrite filter_distinct_from, filter_app.
    fold (priority_labels (labels i)). rewrite Hnone. simpl.
    fold (priority_labels
            (newLabels (set_priority (assignedPriority (text_of (set_state pending i)))
                          (set_state pending i)))).
    by rewrite (priority_labels_newLabels _ (assignedPriority (text_of i))).
Qed.

Lemma priority_label_tracks_priority_witness :
  priority_labels (labels (issue (perform_all [Transition 1 in_progress None]
     (initialize 0 (create (scenario1 "1" None))).1)))
  = ["priority:critical"].
Proof.
  exact (proj2 (priority_label_tracks_priority 0 (scenario1 "1" None)
                  [Transition 1 in_progress None] eq_refl eq_refl)).
Defined.

(** A record whose text mentions documentation or enhancement is never left
    at the default priority: both words are keywords of the low tier, so it
    gets low unless a higher tier matches. *)
Theorem documentation_never_medium (fsm : FSM) :
  includes (text_of (issue fsm)) "documentation" = true ∨
  includes (text_of (issue fsm)) "enhancement" = true →
  priority (issue (autoAssignPriority fsm).1) ≠ Some medium ∧
  priority (issue (autoAssignPriority fsm).1) ≠ None.
Proof.
  intros Hdoc. rewrite autoAssignPriority_run.
  unfold set_priority. cbn [fst issue priority]. split; [|done].
  rewrite assignedPriority_by_tiers. unfold priority_by_tiers.
  assert (matches (text_of (issue fsm)) low_keywords = true) as ->.
  { destruct Hdoc as [H|H];
      [apply (matches_keyword _ _ "documentation")
      |apply (matches_keyword _ _ "enhancement")];
      try done; apply (bool_decide_unpack _); by vm_compute. }
  by destruct (matches (text_of (issue fsm)) critical_keywords),
    (matches (text_of (issue fsm)) high_keywords).
Qed.

Lemma documentation_never_medium_witness :
  priority (issue (autoAssignPriority
    (create (mkIssueData "1" "Update documentation" "" new None [] None))).1)
  ≠ Some medium.
Proof.
  apply (documentation_never_medium
           (create (mkIssueData "1" "Update documentation" "" new None [] None))).
  left. reflexivity.
Defined.

End LifecycleProps.
(** * Further properties of the agent pipeline *)

Module RegistryProps.

Import IssueFSM AgentPipeline Registry PipelineProps.

(** The three ways [processIssue] can go. *)
Lemma processIssueWith_outcome init i (p : Pipeline) :
  let f1 := (init (IssueFSM.create i)).1 in
  let fsm_events := map forward (IssueFSM.emitted f1) in
  match (init (IssueFSM.create i)).2 with
  | Throw e =>
      processIssueWith init i p =
        (signalled p (Some f1) (fsm_events ++ [pipeline_error e]), Throw e)
  | Return _ =>
      (∃ out, chain (agents p) (getIssue f1) = Some out ∧
         processIssueWith init i p =
           (signalled p (Some f1)
              (fsm_events ++ brackets (agents p) (getIssue f1) ++ [pipeline_complete out]),
            Return out)) ∨
      (∃ pre a post ik e,
         agents p = pre ++ a :: post ∧ chain pre (getIssue f1) = Some ik ∧
         process a ik = Throw e ∧
         processIssueWith init i p =
           (signalled p (Some f1)
              (fsm_events ++ brackets pre (getIssue f1)
               ++ [agent_start (name a) (id ik); pipeline_error e]),
            Throw e))
  end.
Proof.
  intros f1 fsm_events.
  destruct (init (IssueFSM.create i)) as [f r] eqn:Hinit. simpl in f1. subst f1.
  assert (on_fsm init (mkPipeline (agents p) (Some (IssueFSM.create i))
                         (AgentPipeline.emitted p))
          = (signalled p (Some f) fsm_events, r)) as Hon.
  { unfold on_fsm. simpl. by rewrite Hinit. }
  assert (∀ ev, on_fsm (read getIssue) (signalled p (Some f) ev)
                = (signalled p (Some f) ev, Return (getIssue f))) as Hget.
  { intros ev. unfold on_fsm, read, signalled. simpl. by rewrite drop_all, app_nil_r. }
  destruct r as [[]|e]; simpl.
  - destruct (chain_first_failure (agents p) (getIssue f))
      as [[out Hc]|(pre & a & post & ik & e & Hag & Hc & Ha)].
    + left. exists out. split; [done|].
      unfold processIssueWith, try_catch, bind at 1, modify.
      unfold bind at 1. rewrite Hon. unfold bind at 1. rewrite Hget.
      unfold bind at 1, read at 1.
      change (agents (signalled p (Some f) fsm_events)) with (agents p).
      unfold bind at 1. rewrite (run_agents_ok _ _ _ _ _ _ Hc).
      unfold bind, AgentPipeline.emit, modify, ret, signalled. simpl.
      by rewrite <- !app_assoc.
    + right. exists pre, a, post, ik, e. split_and!; [done..|].
      unfold processIssueWith, try_catch, bind at 1, modify.
      unfold bind at 1. rewrite Hon. unfold bind at 1. rewrite Hget.
      unfold bind at 1, read at 1.
      change (agents (signalled p (Some f) fsm_events)) with (agents p).
      rewrite Hag. unfold bind at 1.
      rewrite (run_agents_fail _ _ _ _ _ _ _ _ _ Hc Ha).
      unfold bind, AgentPipeline.emit, modify, throw, signalled. simpl.
      rewrite Hag. by rewrite <- !app_assoc.
  - unfold processIssueWith, try_catch, bind at 1, modify.
    unfold bind at 1. rewrite Hon.
    unfold bind, AgentPipeline.emit, modify, throw, signalled. simpl.
    by rewrite <- app_assoc.
Qed.

Lemma chain_app pre rest i ik :
  chain pre i = Some ik → chain (pre ++ rest) i = chain rest ik.
Proof.
  revert i. induction pre as [|a pre IH]; intros i; simpl; [by intros [= ->]|].
  destruct (process a i); [apply IH|done].
Qed.

Lemma initialize_events now i :
  Forall (λ e, is_failure (forward e) = false)
         (IssueFSM.emitted (initialize now (IssueFSM.create i)).1).
Proof.
  destruct (decide (state i = new)) as [Hs|Hs].
  - rewrite (LifecycleProps.initialize_run_new now (IssueFSM.create i) Hs). simpl.
    by repeat constructor.
  - rewrite (LifecycleProps.initialize_other now (IssueFSM.create i) Hs). simpl.
    constructor.
Qed.

Lemma brackets_no_failure l : ∀ i, Forall (λ e, is_failure e = false) (brackets l i).
Proof.
  induction l as [|a l IH]; intros i; simpl; [constructor|].
  destruct (process a i); [|constructor]. by repeat constructor.
Qed.

Lemma register_all_run l :
  ∀ p : Pipeline,
    register_all l p =
      mkPipeline (agents p ++ l) (fsm p)
                 (AgentPipeline.emitted p ++ map (λ a, agent_registered (name a)) l).
Proof.
  induction l as [|a l IH]; intros p; simpl.
  - destruct p. simpl. by rewrite !app_nil_r.
  - rewrite IH. simpl. by rewrite <- !app_assoc.
Qed.

(** ** Further properties *)


(** With the state machine of the repository, [processIssue] throws exactly
    when an agent fails: it returns the output of the last agent when all
    agents succeed on the initialized record, and otherwise throws the error
    of the first agent that fails.  It signals a failure event only in the
    second case, and then once, as the last event. *)
Theorem processIssue_fails_with_agent now i (p : Pipeline) :
  let i1 := getIssue (initialize now (IssueFSM.create i)).1 in
  let run := processIssue now i p in
  let events := drop (length (AgentPipeline.emitted p)) (AgentPipeline.emitted run.1) in
  (∀ out, chain (agents p) i1 = Some out →
     run.2 = Return out ∧ Forall (λ e, is_failure e = false) events) ∧
  (chain (agents p) i1 = None →
     ∃ pre a post ik e quiet,
       agents p = pre ++ a :: post ∧ chain pre i1 = Some ik ∧
       process a ik = Throw e ∧ run.2 = Throw e ∧
       events = quiet ++ [pipeline_error e] ∧
       Forall (λ e, is_failure e = false) quiet).
Proof.
  intros i1 run events. subst run events.
  pose proof (processIssueWith_outcome (initialize now) i p) as H. simpl in H.
  destruct (PipelineProps.initialize_returns now (IssueFSM.create i)) as [f1 Hf1].
  fold (processIssue now i p) in H. rewrite Hf1 in H. simpl in H.
  assert (Forall (λ e, is_failure e = false) (map forward (IssueFSM.emitted f1))) as Hq.
  { apply Forall_fmap. pose proof (initialize_events now i) as He.
    by rewrite Hf1 in He. }
  subst i1. rewrite Hf1. simpl.
  destruct H as [(out & Hc & Hrun)|(pre & a & post & ik & e & Hag & Hc & Ha & Hrun)];
    rewrite Hrun; simpl; rewrite drop_app_length; split.
  - intros out' Hout. rewrite Hc in Hout. injection Hout as <-. split; [done|].
    rewrite !Forall_app. split_and!; [done|apply brackets_no_failure|by repeat constructor].
  - by rewrite Hc.
  - intros out Hout. rewrite Hag, (chain_app _ _ _ _ Hc) in Hout. simpl in Hout.
    by rewrite Ha in Hout.
  - intros _. exists pre, a, post, ik, e.
    exists (map forward (IssueFSM.emitted f1) ++ brackets pre (getIssue f1)
            ++ [agent_start (name a) (id ik)]).
    split_and!; [done..| |].
    + by rewrite <- !app_assoc.
    + rewrite !Forall_app. split_and!; [done|apply brackets_no_failure|by repeat constructor].
Qed.

Lemma processIssue_fails_with_agent_witness :
  (processIssue 0 (scenario1 "1" None)
     (mkPipeline [labeller "a1" "x"; labeller "a2" "y"] None [])).2
  = Return (set_labels ["priority:critical"; "bug"; "state:pending"; "x"; "y"]
              (set_priority critical (set_state pending (scenario1 "1" None)))).
Proof.
  apply (proj1 (processIssue_fails_with_agent 0 (scenario1 "1" None)
                  (mkPipeline [labeller "a1" "x"; labeller "a2" "y"] None []))).
  reflexivity.
Defined.

(** What a subscriber sees when a record in state [new] goes through: the
    four signals of the state machine under their pipeline names, in the
    order of [initialize], then the start and complete signals of each agent
    in registration order, then the completion with the returned record. *)
Theorem processIssue_event_order now i (p : Pipeline) out :
  let t := mkStateTransition new pending now (Some "Auto-transition from new issue") in
  let f1 := (initialize now (IssueFSM.create i)).1 in
  state i = new →
  chain (agents p) (getIssue f1) = Some out →
  processIssue now i p =
    (signalled p (Some f1)
       ([issue_state_changed t;
         issue_priority_assigned (assignedPriority (text_of i));
         issue_labels_updated (labels (getIssue f1));
         issue_ready (getIssue f1)]
        ++ brackets (agents p) (getIssue f1) ++ [pipeline_complete out]),
     Return out).
Proof.
  intros t f1 Hs Hc.
  pose proof (processIssueWith_outcome (initialize now) i p) as H. simpl in H.
  fold (processIssue now i p) in H. fold f1 in H.
  assert (initialize now (IssueFSM.create i) = (f1, Return tt)) as Hrun.
  { subst f1. by rewrite (LifecycleProps.initialize_run_new now (IssueFSM.create i) Hs). }
  rewrite Hrun in H. simpl in H.
  destruct H as [(out' & Hc' & ->)|(pre & a & post & ik & e & Hag & Hpre & Ha & _)].
  - rewrite Hc in Hc'. injection Hc' as <-. do 2 f_equal.
    subst f1. by rewrite (LifecycleProps.initialize_run_new now (IssueFSM.create i) Hs).
  - rewrite Hag, (chain_app _ _ _ _ Hpre) in Hc. simpl in Hc. by rewrite Ha in Hc.
Qed.

Lemma processIssue_event_order_witness :
  AgentPipeline.emitted (processIssue 0 (scenario1 "1" None)
     (mkPipeline [labeller "a1" "x"] None [])).1
  = [issue_state_changed
       (mkStateTransition new pending 0 (Some "Auto-transition from new issue"));
     issue_priority_assigned critical;
     issue_labels_updated ["priority:critical"; "bug"; "state:pending"];
     issue_ready (set_labels ["priority:critical"; "bug"; "state:pending"]
                    (set_priority critical (set_state pending (scenario1 "1" None))));
     agent_start "a1" "1"; agent_complete "a1" "1";
     pipeline_complete
       (set_labels ["priority:critical"; "bug"; "state:pending"; "x"]
          (set_priority critical (set_state pending (scenario1 "1" None))))].
Proof.
  rewrite (processIssue_event_order 0 (scenario1 "1" None)
             (mkPipeline [labeller "a1" "x"] None [])
             (set_labels ["priority:critical"; "bug"; "state:pending"; "x"]
                (set_priority critical (set_state pending (scenario1 "1" None))))
             eq_refl eq_refl).
  reflexivity.
Defined.

(** A pipeline without agents returns a record whose state is not [new] as
    it came, and signals nothing but the completion. *)
Theorem processIssue_no_agents now i (p : Pipeline) :
  agents p = [] → state i ≠ new →
  processIssue now i p =
    (signalled p (Some (IssueFSM.create i)) [pipeline_complete i], Return i).
Proof.
  intros Hag Hs.
  pose proof (processIssueWith_outcome (initialize now) i p) as H. simpl in H.
  fold (processIssue now i p) in H.
  rewrite (LifecycleProps.initialize_other now (IssueFSM.create i) Hs) in H.
  simpl in H. rewrite Hag in H. simpl in H.
  destruct H as [(out & [= <-] & ->)|(pre & a & post & ik & e & Hnil & _)]; [done|].
  by destruct pre.
Qed.

Lemma processIssue_no_agents_witness :
  (processIssue 0 (mkIssueData "9" "t" "b" review None ["x"] None) AgentPipeline.create).2
  = Return (mkIssueData "9" "t" "b" review None ["x"] None).
Proof.
  rewrite (processIssue_no_agents 0 (mkIssueData "9" "t" "b" review None ["x"] None)
             AgentPipeline.create eq_refl); [reflexivity|discriminate].
Defined.

(** Agents run in the order of their registration: registering the agents of
    a list one by one appends them, in order, to the agents registered
    before, with one [agent-registered] event each; [clearAgents] then leaves
    none, whatever was registered. *)
Theorem registration_order l (p : Pipeline) :
  getAgents (register_all l p) = getAgents p ++ l ∧
  AgentPipeline.emitted (register_all l p)
    = AgentPipeline.emitted p ++ map (λ a, agent_registered (name a)) l ∧
  getAgents (clearAgents (register_all l p)).1 = [] ∧
  AgentPipeline.emitted (clearAgents (register_all l p)).1
    = AgentPipeline.emitted (register_all l p) ++ [agents_cleared].
Proof. rewrite register_all_run. by split_and!. Qed.

End RegistryProps.
(** * Further properties of the task graph builder *)

Module BucketsProps.

Import Coordinator Graph Buckets DAGProps.

Lemma concat_alter_perm (x : string) (l : list (list string)) :
  ∀ k, (k < length l)%nat →
    concat (alter (λ b, b ++ [x]) k l) ≡ₚ x :: concat l.
Proof.
  induction l as [|b l IH]; intros k Hk; simpl in Hk; [lia|].
  destruct k as [|k].
  - simpl. rewrite <- app_assoc. simpl. symmetry. apply Permutation_middle.
  - specialize (IH k ltac:(lia)). simpl in *. rewrite IH.
    symmetry. apply Permutation_middle.
Qed.

Lemma concat_addToLevel_perm (x : string) lv level :
  concat (addToLevel lv level x) ≡ₚ x :: concat lv.
Proof.
  unfold addToLevel, grow. rewrite concat_alter_perm.
  - rewrite concat_app.
    assert (∀ n, concat (replicate n ([] : list string)) = []) as ->
      by (induction n; simpl; auto).
    by rewrite app_nil_r.
  - rewrite length_app, length_replicate. lia.
Qed.

Lemma concat_reverse_perm (l : list (list string)) : concat (reverse l) ≡ₚ concat l.
Proof.
  induction l as [|b l IH]; [done|].
  rewrite reverse_cons, concat_app. simpl. rewrite app_nil_r, IH.
  apply Permutation_app_comm.
Qed.

Lemma visit_exact ts fuel :
  ∀ x lvl st st', visit fuel ts x lvl st = Some st' → exact st → exact st'.
Proof.
  induction fuel as [|fuel IH]; intros x lvl st st' Hv Hst; simpl in Hv; [done|].
  case_decide as Hgrey; [by simplify_eq|].
  case_decide as Hblack; [by simplify_eq|].
  destruct (for_each _ _ _) as [st2|] eqn:Hloop; [|done]. simplify_eq.
  pose (J := λ (_ : list string) (s : Walk),
             exact s ∧ st_inProgress s = {[x]} ∪ st_inProgress st).
  assert (J ([] ++ deps_of ts x) st2) as ((Hdisj & Hnd & Hiff) & HP).
  { eapply (for_each_ind _ J); [exact Hloop| |].
    - destruct Hst as (Hdisj & Hnd & Hiff). unfold J, exact. simpl.
      split_and!; [set_solver|done..].
    - intros sn d s s' _ [Hs HPs] Hd.
      pose proof (visit_frame _ _ _ _ _ _ Hd) as (HP' & _).
      split; [by eapply IH|congruence]. }
  unfold exact. simpl. split_and!.
  - set_solver.
  - rewrite concat_addToLevel_perm. apply NoDup_cons. split; [|done].
    rewrite Hiff. set_solver.
  - intros y. rewrite elem_of_addToLevel, Hiff. set_solver.
Qed.

Lemma visit_all_exact ts fuel roots :
  ∀ st st', visit_all fuel ts roots st = Some st' → exact st → exact st'.
Proof.
  induction roots as [|r roots IH]; intros st st' Hv Hst; simpl in Hv; [by simplify_eq|].
  case_decide; [by eapply IH|].
  destruct (visit _ _ _ _ _) as [st1|] eqn:Hr; [|done].
  eapply IH; [exact Hv|]. by eapply visit_exact.
Qed.

Lemma filled_addToLevel lv level x :
  filled_from (S level) lv → filled_from level (addToLevel lv level x).
Proof.
  intros Hlv j b Hj. unfold addToLevel.
  destruct (decide (j = level)) as [->|Hne].
  - rewrite list_lookup_alter_eq. destruct (grow lv level !! level) as [old|]; [|done].
    simpl. intros [= <-]. by destruct old.
  - rewrite list_lookup_alter_ne by done. unfold grow.
    destruct (decide (j < length lv)%nat) as [Hlt|Hge].
    + rewrite lookup_app_l by done. apply Hlv. lia.
    + rewrite lookup_app_r by lia. intros Hb%lookup_replicate. lia.
Qed.

Lemma filled_from_le k k' lv : (k ≤ k')%nat → filled_from k lv → filled_from k' lv.
Proof. intros Hle Hlv j b Hj. apply Hlv. lia. Qed.

Lemma visit_filled ts fuel :
  ∀ x lvl st st', visit fuel ts x lvl st = Some st' →
    filled_from lvl (st_levels st) → filled_from lvl (st_levels st').
Proof.
  induction fuel as [|fuel IH]; intros x lvl st st' Hv Hst; simpl in Hv; [done|].
  case_decide as Hgrey; [by simplify_eq|].
  case_decide as Hblack; [by simplify_eq|].
  destruct (for_each _ _ _) as [st2|] eqn:Hloop; [|done]. simplify_eq. simpl.
  apply filled_addToLevel.
  eapply (for_each_ind _ (λ _ s, filled_from (S lvl) (st_levels s)) _ []);
    [exact Hloop| |].
  - simpl. apply (filled_from_le lvl); [lia|exact Hst].
  - intros _ d s s' _ Hs Hd. exact (IH _ _ _ _ Hd Hs).
Qed.

Lemma visit_all_filled ts fuel roots :
  ∀ st st', visit_all fuel ts roots st = Some st' →
    filled_from 0 (st_levels st) → filled_from 0 (st_levels st').
Proof.
  induction roots as [|r roots IH]; intros st st' Hv Hst; simpl in Hv; [by simplify_eq|].
  case_decide; [exact (IH _ _ Hv Hst)|].
  destruct (visit _ _ _ _ _) as [st1|] eqn:Hr; [|done].
  exact (IH _ _ Hv (visit_filled _ _ _ _ _ _ Hr Hst)).
Qed.

Lemma grown_refl lv : grown lv lv.
Proof. intros j b Hb. by exists b. Qed.

Lemma grown_trans lv1 lv2 lv3 : grown lv1 lv2 → grown lv2 lv3 → grown lv1 lv3.
Proof.
  intros H12 H23 j b Hb. destruct (H12 j b Hb) as (b2 & Hb2 & Hsub).
  destruct (H23 j b2 Hb2) as (b3 & Hb3 & Hsub'). exists b3. split; [done|]. auto.
Qed.

Lemma grown_addToLevel lv level x : grown lv (addToLevel lv level x).
Proof.
  intros j b Hb. unfold addToLevel.
  assert (grow lv level !! j = Some b) as Hg.
  { unfold grow. rewrite lookup_app_l; [done|]. by eapply lookup_lt_Some. }
  destruct (decide (j = level)) as [->|Hne].
  - exists (b ++ [x]). rewrite list_lookup_alter_eq, Hg. split; [done|].
    intros y Hy. apply elem_of_app. by left.
  - exists b. by rewrite list_lookup_alter_ne.
Qed.

Lemma placed_addToLevel lv level x :
  ∃ b, addToLevel lv level x !! level = Some b ∧ x ∈ b.
Proof.
  unfold addToLevel.
  destruct (lookup_lt_is_Some_2 (grow lv level) level) as [old Hold].
  { unfold grow. rewrite length_app, length_replicate. lia. }
  exists (old ++ [x]). rewrite list_lookup_alter_eq, Hold. split; [done|].
  apply elem_of_app. right. by left.
Qed.

Lemma visit_grown ts fuel :
  ∀ x lvl st st', visit fuel ts x lvl st = Some st' →
    grown (st_levels st) (st_levels st').
Proof.
  induction fuel as [|fuel IH]; intros x lvl st st' Hv; simpl in Hv; [done|].
  case_decide as Hgrey; [simplify_eq; apply grown_refl|].
  case_decide as Hblack; [simplify_eq; apply grown_refl|].
  destruct (for_each _ _ _) as [st2|] eqn:Hloop; [|done]. simplify_eq. simpl.
  eapply grown_trans; [|apply grown_addToLevel].
  refine (for_each_ind _ (λ _ s, grown (st_levels st) (st_levels s)) _ [] _ _
            Hloop (grown_refl _) _).
  intros _ d s s' _ Hs Hd. exact (grown_trans _ _ _ Hs (IH _ _ _ _ Hd)).
Qed.

Lemma visit_all_grown ts fuel roots :
  ∀ st st', visit_all fuel ts roots st = Some st' →
    grown (st_levels st) (st_levels st').
Proof.
  induction roots as [|r roots IH]; intros st st' Hv; simpl in Hv.
  { simplify_eq. apply grown_refl. }
  case_decide; [exact (IH _ _ Hv)|].
  destruct (visit _ _ _ _ _) as [st1|] eqn:Hr; [|done].
  exact (grown_trans _ _ _ (visit_grown _ _ _ _ _ _ Hr) (IH _ _ Hv)).
Qed.

Lemma visit_white_placed ts fuel x lvl st st' :
  visit fuel ts x lvl st = Some st' →
  x ∉ st_inProgress st → x ∉ st_visited st →
  ∃ b, st_levels st' !! lvl = Some b ∧ x ∈ b.
Proof.
  destruct fuel as [|fuel]; simpl; [done|]. intros Hv Hgrey Hblack.
  rewrite !decide_False in Hv by done.
  destruct (for_each _ _ _) as [st2|]; [|done]. simplify_eq. simpl.
  apply placed_addToLevel.
Qed.

(** The traversal that made [buildDAG ts]. *)
Lemma buildDAG_walk ts :
  ∃ st, visit_all (enough ts) ts ts start = Some st ∧
        buildDAG ts = mkDAG ts (reverse (st_levels st)) (st_hasCycles st).
Proof.
  pose proof (buildDAG_fuel_enough ts) as Hrun. unfold buildDAG_fuel in Hrun.
  destruct (visit_all _ _ _ _) as [st|] eqn:Hall; [|done].
  exists st. split; [done|]. by injection Hrun.
Qed.

Lemma deps_of_independent ts x :
  (∀ t, t ∈ ts → dependencies t = []) → deps_of ts x = [].
Proof.
  intros Hind. unfold deps_of. destruct (find_task ts x) as [t|] eqn:Hf; [|done].
  apply find_task_Some in Hf as [Ht _]. by apply Hind.
Qed.

Lemma addToLevel_bucket b x : addToLevel (bucket b) 0 x = bucket (b ++ [x]).
Proof. by destruct b. Qed.

Lemma visit_all_independent ts fuel roots :
  (∀ t, t ∈ ts → dependencies t = []) →
  ∀ b,
    visit_all (S fuel) ts roots (mkWalk (bucket b) (list_to_set b) ∅ false)
    = Some (mkWalk (bucket (b ++ distinct_from b (map id roots)))
                   (list_to_set (b ++ distinct_from b (map id roots))) ∅ false).
Proof.
  intros Hind. induction roots as [|r roots IH]; intros b.
  { simpl. by rewrite app_nil_r. }
  cbn [visit_all map distinct_from st_visited]. case_decide as Hseen.
  - rewrite bool_decide_eq_true_2 by (by apply elem_of_list_to_set in Hseen).
    apply IH.
  - rewrite bool_decide_eq_false_2 by (by rewrite elem_of_list_to_set in Hseen).
    cbn [visit]. cbn [st_inProgress st_visited st_levels st_hasCycles].
    rewrite decide_False by set_solver. rewrite decide_False by done.
    rewrite (deps_of_independent _ _ Hind). cbn [for_each].
    cbn [st_inProgress st_visited st_levels st_hasCycles].
    rewrite addToLevel_bucket.
    replace ({[id r]} ∪ list_to_set b : gset string) with
      (list_to_set (b ++ [id r]) : gset string) by set_solver.
    replace (({[id r]} ∪ ∅) ∖ {[id r]} : gset string) with (∅ : gset string)
      by set_solver.
    rewrite IH.
    assert (distinct_from (b ++ [id r]) (map id roots)
            = distinct_from (id r :: b) (map id roots)) as ->.
    { apply LifecycleProps.distinct_from_ext. intros x _.
      rewrite elem_of_app, !elem_of_cons, elem_of_nil. tauto. }
    by rewrite <- app_assoc.
Qed.

(** ** Further properties *)

(** The cycle flag is exact: it is false exactly for the lists without a
    cycle of the edges the traversal follows and, when the identifiers of the
    list are unique, true exactly when some task reaches itself through
    declared dependencies. *)
Theorem cycle_flag_exact ts :
  (hasCycles (buildDAG ts) = false ↔ ¬ cyclic ts) ∧
  (NoDup (map id ts) →
     (hasCycles (buildDAG ts) = true ↔ ∃ x, tc (depends ts) x x)).
Proof.
  split.
  - rewrite <- hasCycles_iff_cyclic. by destruct (hasCycles (buildDAG ts)).
  - intros Hnd. rewrite hasCycles_iff_cyclic. split.
    + intros [x Hx]. exists x.
      apply (tc_congruence (λ a, a) (depends ts)) in Hx; [done|].
      intros a b. by apply edge_depends.
    + by apply declared_cycle_cyclic.
Qed.

Lemma cycle_flag_exact_witness :
  hasCycles (buildDAG mutual) = true ↔ ∃ x, tc (depends mutual) x x.
Proof.
  apply (proj2 (cycle_flag_exact mutual)).
  apply (bool_decide_unpack _). by vm_compute.
Defined.

(** Every task is scheduled, and nothing twice: the identifier of each task
    of the list is in a bucket, and no identifier occurs twice in the
    buckets, also when two tasks share an identifier. *)
Theorem every_task_placed_once ts :
  NoDup (concat (levels (buildDAG ts))) ∧
  (∀ t, t ∈ ts → id t ∈ concat (levels (buildDAG ts))).
Proof.
  destruct (buildDAG_walk ts) as (st & Hall & ->). simpl.
  destruct (visit_all_exact _ _ _ _ _ Hall) as (_ & Hnd & Hiff).
  { unfold exact. simpl. split_and!; [set_solver|constructor|set_solver]. }
  destruct (visit_all_spec ts _ _ _ _ Hall) as (_ & _ & _ & Hroots & _);
    [done|split; simpl; [set_solver|by split; set_solver]|].
  split.
  - by rewrite concat_reverse_perm.
  - intros t Ht. rewrite elem_of_concat_reverse, Hiff. by apply Hroots.
Qed.

Lemma every_task_placed_once_witness :
  "b" ∈ concat (levels (buildDAG [task "a" ["b"]; task "b" []; task "a" []])).
Proof.
  apply (proj2 (every_task_placed_once [task "a" ["b"]; task "b" []; task "a" []])
               (task "b" [])).
  apply elem_of_cons; right. apply elem_of_cons; by left.
Defined.

(** No level is empty, so the plan has no line without a task: the bucket of
    every line holds one task, or at least two and then the line carries the
    parallel marker. *)
Theorem no_empty_level ts :
  Forall (λ b, b ≠ []) (levels (buildDAG ts)) ∧
  ∀ i line, createExecutionPlan (buildDAG ts) !! i = Some line →
    ∃ b, levels (buildDAG ts) !! i = Some b ∧ line = plan_line i b ∧
         (length b = 1 ∨ 2 ≤ length b)%nat.
Proof.
  destruct (buildDAG_walk ts) as (st & Hall & ->). simpl.
  assert (Forall (λ b, b ≠ []) (reverse (st_levels st))) as Hfilled.
  { apply Forall_reverse, Forall_lookup. intros j b Hb.
    assert (filled_from 0 (st_levels start)) as H0
      by (intros ? ? _ Hnil; simpl in Hnil; by rewrite lookup_nil in Hnil).
    exact (visit_all_filled _ _ _ _ _ Hall H0 j b (Nat.le_0_l j) Hb). }
  split; [done|].
  intros i line. unfold createExecutionPlan. simpl.
  rewrite list_lookup_imap. destruct (reverse (st_levels st) !! i) as [b|] eqn:Hb; [|done].
  simpl. intros [= <-]. exists b. split_and!; [done..|].
  rewrite Forall_lookup in Hfilled. specialize (Hfilled _ _ Hb).
  destruct b as [|? [|? ?]]; simpl; [done|by left|right; lia].
Qed.

Lemma no_empty_level_witness :
  ∃ b, levels (buildDAG chain) !! 0%nat = Some b ∧ (length b = 1 ∨ 2 ≤ length b)%nat.
Proof.
  destruct (proj2 (no_empty_level chain) 0%nat "Level 1: t1, t2, t3 (parallel)" eq_refl)
    as (b & Hb & _ & Hlen).
  exists b. split; [exact Hb|exact Hlen].
Defined.

(** The first task of the list always ends in the last level, whatever
    depends on it: it is visited first, at depth 0, and the buckets are
    reversed at the end. *)
Theorem first_task_last_level t rest :
  ∃ b, last (levels (buildDAG (t :: rest))) = Some b ∧ id t ∈ b.
Proof.
  destruct (buildDAG_walk (t :: rest)) as (st & Hall & ->). simpl.
  cbn [visit_all] in Hall. rewrite decide_False in Hall by set_solver.
  destruct (visit _ _ _ _ _) as [st1|] eqn:Hfirst; [|done].
  destruct (visit_white_placed _ _ _ _ _ _ Hfirst) as (b1 & Hb1 & Hin); [set_solver..|].
  destruct (visit_all_grown _ _ _ _ _ Hall _ _ Hb1) as (b & Hb & Hsub).
  exists b. split; [|by apply Hsub].
  by rewrite last_reverse, head_lookup.
Qed.

(** When no task declares a dependency, there is no cycle and all tasks are
    in one level, in the order of the list, a repeated identifier once; the
    empty list gives no level and an empty plan. *)
Theorem independent_tasks ts :
  (∀ t, t ∈ ts → dependencies t = []) →
  hasCycles (buildDAG ts) = false ∧
  levels (buildDAG ts) = bucket (distinct (map id ts)) ∧
  (ts = [] → createExecutionPlan (buildDAG ts) = []).
Proof.
  intros Hind. destruct (buildDAG_walk ts) as (st & Hall & ->).
  unfold enough, start in Hall.
  change (mkWalk [] ∅ ∅ false) with (mkWalk (bucket []) (list_to_set []) ∅ false) in Hall.
  rewrite (visit_all_independent ts _ ts Hind []) in Hall.
  injection Hall as <-. simpl. split_and!; [done| |by intros ->].
  unfold distinct. by destruct (distinct_from [] (map id ts)).
Qed.

Lemma independent_tasks_witness :
  levels (buildDAG [task "a" []; task "b" []; task "a" []]) = [["a"; "b"]].
Proof.
  refine (proj1 (proj2 (independent_tasks [task "a" []; task "b" []; task "a" []] _))).
  intros t Ht. repeat (apply elem_of_cons in Ht as [->|Ht]; [reflexivity|]).
  by apply elem_of_nil in Ht.
Defined.


End BucketsProps.
